(** * gost: the proxy chain (chain.go)

    A shallow embedding of [chain.go]: the [Chain] data model, route
    selection ([selectRoute]), connection building ([getConn]) and the
    retrying entry points ([Dial], [Conn]).

    The collaborators of the chain (node groups, clients, connections,
    node health, the network) live in other files of the package; they are
    an interface here ([Collaborators]), and every call the chain makes to
    them is recorded, in order, in the [trace] of the state. *)

From Stdlib Require Import ZArith List String Bool Lia.
Import ListNotations.
Open Scope Z_scope.
Open Scope string_scope.
Open Scope list_scope.

(** ** Go's [int] *)

Module GoInt.

(** [int] on the 64-bit targets; signed arithmetic wraps around. *)
Definition bits : Z := 64.
Definition max_int : Z := 2 ^ (bits - 1) - 1.
Definition min_int : Z := - 2 ^ (bits - 1).

Definition wrap (z : Z) : Z := (z - min_int) mod 2 ^ bits + min_int.

Definition add (a b : Z) : Z := wrap (a + b).

Definition in_range (z : Z) : Prop := min_int <= z <= max_int.

End GoInt.

(** ** Data model *)

(** [errors.New] values; [ErrEmptyChain] is the package's own. *)
Inductive Err : Type :=
| ErrEmptyChain
| ErrOther (msg : string).

(** Go's [error]: [None] is [nil]. *)
Definition error : Type := option Err.

(** A live connection handle; Go's [net.Conn] is [option ConnID], [None]
    being [nil]. *)
Definition ConnID : Type := nat.
Definition net_Conn : Type := option ConnID.

Record Transporter : Type := {
  trName : string;
  Multiplex : bool
}.

(** A client of a node: a non-nil [*Client] whose [Connector] and
    [Transporter] are set, so that its methods can be called. *)
Record Client : Type := {
  Connector : string;
  Transporter_of : Transporter
}.

Inductive HandshakeOption : Type :=
| HandshakeOpt (name : string).

(** [Chain], [NodeGroup], [Node] and [DialOption] refer to each other:
    [ChainDialOption(route)] stores a chain in a node's dial options. *)
Inductive Chain : Type :=
  Build_Chain (isRoute : bool) (Retries : Z) (nodeGroups : list NodeGroup)
with NodeGroup : Type :=
  Build_NodeGroup (ID : Z) (nodes : list Node)
with Node : Type :=
  Build_Node (ID : Z) (Addr : string)
             (DialOptions : list DialOption)
             (HandshakeOptions : list HandshakeOption)
             (Client_of : option Client)
with DialOption : Type :=
| ChainDialOption (route : option Chain)
| DialOpt (name : string).

Definition isRoute (c : Chain) : bool :=
  let 'Build_Chain b _ _ := c in b.
Definition Retries (c : Chain) : Z :=
  let 'Build_Chain _ r _ := c in r.
Definition nodeGroups (c : Chain) : list NodeGroup :=
  let 'Build_Chain _ _ gs := c in gs.

Definition groupID (g : NodeGroup) : Z :=
  let 'Build_NodeGroup i _ := g in i.
Definition nodes (g : NodeGroup) : list Node :=
  let 'Build_NodeGroup _ ns := g in ns.

Definition nodeID (n : Node) : Z :=
  let 'Build_Node i _ _ _ _ := n in i.
Definition Addr (n : Node) : string :=
  let 'Build_Node _ a _ _ _ := n in a.
Definition DialOptions (n : Node) : list DialOption :=
  let 'Build_Node _ _ d _ _ := n in d.
Definition HandshakeOptions (n : Node) : list HandshakeOption :=
  let 'Build_Node _ _ _ h _ := n in h.
Definition Client_of_node (n : Node) : option Client :=
  let 'Build_Node _ _ _ _ c := n in c.

(** [node.DialOptions = append(node.DialOptions, o)] on the local copy. *)
Definition append_DialOption (n : Node) (o : DialOption) : Node :=
  let 'Build_Node i a d h c := n in Build_Node i a (d ++ [o]) h c.

(** [Node{}] *)
Definition zero_Node : Node := Build_Node 0 "" [] [] None.

(** Modelled from the spec: [NewNodeGroup] is in node.go; it "wraps [the
    node] in a fresh single-node group" (for several nodes: one group
    holding them all).  The group's other fields keep their zero value. *)
Definition NewNodeGroup (ns : list Node) : NodeGroup := Build_NodeGroup 0 ns.

(** Modelled from the spec: [NodeGroup.Nodes] is in node.go; the group
    "exposes the full candidate list for introspection". *)
Definition NodeGroup_Nodes (g : NodeGroup) : list Node := nodes g.

(** Modelled from the spec: [Node.Clone] is in node.go; "value copy, used
    when exposing a representative hop". *)
Definition Clone (n : Node) : Node := n.

(** ** The pure part of [Chain] *)

(** [*Chain]: [None] is the nil pointer. *)
Definition ptr_Chain : Type := option Chain.

(** [NewChain(nodes...)]: one group per node. *)
Definition NewChain (ns : list Node) : Chain :=
  fold_left
    (fun chain node =>
       Build_Chain (isRoute chain) (Retries chain)
                   (nodeGroups chain ++ [NewNodeGroup [node]]))
    ns (Build_Chain false 0 []).

(** [newRoute(nodes...)] *)
Definition newRoute (ns : list Node) : Chain :=
  let chain := NewChain ns in
  Build_Chain true (Retries chain) (nodeGroups chain).

(** [route.Retries = r] *)
Definition set_Retries (c : Chain) (r : Z) : Chain :=
  Build_Chain (isRoute c) r (nodeGroups c).

(** [c.Nodes()]: the first node of every group that has one. *)
Fixpoint Nodes_of_groups (gs : list NodeGroup) : list Node :=
  match gs with
  | [] => []
  | group :: rest =>
      match NodeGroup_Nodes group with
      | n0 :: _ => n0 :: Nodes_of_groups rest
      | [] => Nodes_of_groups rest
      end
  end.

Definition Nodes (c : Chain) : list Node := Nodes_of_groups (nodeGroups c).

Definition NodeGroups (c : Chain) : list NodeGroup := nodeGroups c.

(** [c.IsEmpty()]: [c == nil || len(c.nodeGroups) == 0]. *)
Definition IsEmpty (c : ptr_Chain) : bool :=
  match c with
  | None => true
  | Some ch => match nodeGroups ch with [] => true | _ :: _ => false end
  end.

(** What a Go call leaves behind: a value, or a run-time panic (an index
    out of range, a nil dereference, a method call on a nil interface). *)
Inductive outcome (A : Type) : Type :=
| Ret (a : A)
| Panic.
Arguments Ret {A} a.
Arguments Panic {A}.

(** [c.LastNode()]; [group.nodes[0]] panics on a group without nodes. *)
Definition LastNode (c : ptr_Chain) : outcome Node :=
  if IsEmpty c then Ret zero_Node
  else match c with
       | None => Ret zero_Node
       | Some ch =>
           match last (map Some (nodeGroups ch)) None with
           | Some group =>
               match nodes group with
               | n0 :: _ => Ret (Clone n0)
               | [] => Panic
               end
           | None => Ret zero_Node
           end
       end.

(** [c.LastNodeGroup()]; [None] is the nil group. *)
Definition LastNodeGroup (c : ptr_Chain) : option NodeGroup :=
  if IsEmpty c then None
  else match c with
       | None => None
       | Some ch => last (map Some (nodeGroups ch)) None
       end.

(** [c.AddNode(nodes...)]; the receiver is updated in place, so the
    function returns the receiver after the call. *)
Definition AddNode (c : ptr_Chain) (ns : list Node) : ptr_Chain :=
  match c with
  | None => None
  | Some ch =>
      Some (fold_left
              (fun acc node =>
                 Build_Chain (isRoute acc) (Retries acc)
                             (nodeGroups acc ++ [NewNodeGroup [node]]))
              ns ch)
  end.

(** [c.AddNodeGroup(groups...)] *)
Definition AddNodeGroup (c : ptr_Chain) (groups : list NodeGroup) : ptr_Chain :=
  match c with
  | None => None
  | Some ch =>
      Some (fold_left
              (fun acc group =>
                 Build_Chain (isRoute acc) (Retries acc)
                             (nodeGroups acc ++ [group]))
              groups ch)
  end.

(** ** Collaborators and effects *)

(** The result of a collaborator's [(T, error)] call, under Go's
    convention that the value is meaningful exactly when the error is nil:
    a collaborator returns, and answers with a value that is not nil, or
    with an error. *)
Inductive result (A : Type) : Type :=
| Ok (a : A)
| Fail (e : Err).
Arguments Ok {A} a.
Arguments Fail {A} e.

(** One entry per call the chain makes to a collaborator. *)
Inductive Event : Type :=
| ENext (group : NodeGroup)
| EDial (cl : Client) (addr : string) (opts : list DialOption)
| EHandshake (cl : Client) (cn : net_Conn) (opts : list HandshakeOption)
| EConnect (cl : Client) (cn : net_Conn) (addr : string)
| EClose (cn : ConnID)
| EMarkDead (node : Node)
| EResetDead (node : Node)
| ENetDialTimeout (network addr : string) (timeout : Z).

(** The code outside chain.go that the chain calls.  [X] is the state
    these calls read and change: sockets, selection cursors, the health
    counters of the nodes. *)
Class Collaborators (X : Type) : Type := {
  (** [group.Next()] *)
  group_Next : NodeGroup -> X -> result Node * X;
  (** [client.Dial(addr, options...)] *)
  Client_Dial : Client -> string -> list DialOption -> X -> result ConnID * X;
  (** [client.Handshake(conn, options...)] *)
  Client_Handshake :
    Client -> net_Conn -> list HandshakeOption -> X -> result ConnID * X;
  (** [client.Connect(conn, addr)] *)
  Client_Connect : Client -> net_Conn -> string -> X -> result ConnID * X;
  (** [conn.Close()] *)
  Conn_Close : ConnID -> X -> X;
  (** [node.MarkDead()], [node.ResetDead()] *)
  Node_MarkDead : Node -> X -> X;
  Node_ResetDead : Node -> X -> X;
  (** [net.DialTimeout(network, addr, timeout)] *)
  net_DialTimeout : string -> string -> Z -> X -> result ConnID * X;
  (** [node.String()] *)
  Node_String : Node -> string;
  (** the package's [DialTimeout] and [Debug] *)
  DialTimeout : Z;
  Debug : bool
}.

Record State (X : Type) : Type := {
  ext : X;
  trace : list Event;
  logged : list string
}.
Arguments ext {X} _.
Arguments trace {X} _.
Arguments logged {X} _.

(** State passing with panics. *)
Definition M (X A : Type) : Type := State X -> outcome A * State X.

Definition ret {X A} (a : A) : M X A := fun s => (Ret a, s).

Definition panic {X A} : M X A := fun s => (Panic, s).

Definition bind {X A B} (m : M X A) (k : A -> M X B) : M X B :=
  fun s =>
    match m s with
    | (Ret a, s') => k a s'
    | (Panic, s') => (Panic, s')
    end.

Declare Scope go_scope.
Delimit Scope go_scope with go.
Notation "x <- m ;; k" := (bind m (fun x => k))
  (at level 100, m at next level, right associativity) : go_scope.
Notation "' p <- m ;; k" := (bind m (fun x => let 'p := x in k))
  (at level 100, p pattern, m at next level, right associativity) : go_scope.
Notation "m ;; k" := (bind m (fun _ => k))
  (at level 100, right associativity) : go_scope.
Open Scope go_scope.

Section Chain.

Context {X : Type} `{Collaborators X}.

Local Abbreviation M := (M X).

(** *** Calls to the collaborators *)

Definition record (e : Event) (x : X) (s : State X) : State X :=
  {| ext := x; trace := trace s ++ [e]; logged := logged s |}.

Definition call {A} (e : Event) (f : X -> A * X) : M A :=
  fun s => let '(a, x) := f (ext s) in (Ret a, record e x s).

Definition act (e : Event) (f : X -> X) : M unit :=
  fun s => (Ret tt, record e (f (ext s)) s).

Definition lift {A} (o : outcome A) : M A := fun s => (o, s).

(** [node.Client], about to be dereferenced by a method call. *)
Definition the_Client (node : Node) : M Client :=
  match Client_of_node node with
  | Some cl => ret cl
  | None => panic
  end.

Definition do_Next (group : NodeGroup) : M (result Node) :=
  call (ENext group) (group_Next group).

Definition do_Dial (cl : Client) (addr : string) (opts : list DialOption)
  : M (result ConnID) :=
  call (EDial cl addr opts) (Client_Dial cl addr opts).

Definition do_Handshake (cl : Client) (cn : net_Conn)
           (opts : list HandshakeOption) : M (result ConnID) :=
  call (EHandshake cl cn opts) (Client_Handshake cl cn opts).

Definition do_Connect (cl : Client) (cn : net_Conn) (addr : string)
  : M (result ConnID) :=
  call (EConnect cl cn addr) (Client_Connect cl cn addr).

(** [cn.Close()]; a nil [net.Conn] has no method to call. *)
Definition do_Close (cn : net_Conn) : M unit :=
  match cn with
  | Some c => act (EClose c) (Conn_Close c)
  | None => panic
  end.

Definition do_MarkDead (node : Node) : M unit :=
  act (EMarkDead node) (Node_MarkDead node).

Definition do_ResetDead (node : Node) : M unit :=
  act (EResetDead node) (Node_ResetDead node).

(** [log.Log(args...)] *)
Definition Log (args : list string) : M unit :=
  fun s => (Ret tt, {| ext := ext s; trace := trace s;
                       logged := logged s ++ [String.concat " " args] |}).

(** *** [selectRoute] *)

(** The body of [for _, group := range c.nodeGroups], with the variables
    it updates: [route] and [buf]. *)
Fixpoint selectRoute_range (retries : Z) (groups : list NodeGroup)
         (route : ptr_Chain) (buf : string) {struct groups}
  : M (ptr_Chain * error) :=
  match groups with
  | [] =>
      (if Debug then Log ["select route:"; buf] else ret tt);;
      ret (route, None)
  | group :: rest =>
      r <- do_Next group;;
      match r with
      | Fail err => ret (None, Some err)
      | Ok node =>
          let buf := (buf ++ Node_String node ++ " -> ")%string in
          cl <- the_Client node;;
          if Multiplex (Transporter_of cl) then
            let node := append_DialOption node (ChainDialOption route) in
            (* cutoff the chain for multiplex. *)
            let route := Some (set_Retries (newRoute []) retries) in
            selectRoute_range retries rest (AddNode route [node]) buf
          else
            selectRoute_range retries rest (AddNode route [node]) buf
      end
  end.

Definition selectRoute (c : Chain) : M (ptr_Chain * error) :=
  if isRoute c then ret (Some c, None)
  else
    let route := Some (set_Retries (newRoute []) (Retries c)) in
    selectRoute_range (Retries c) (nodeGroups c) route "".

(** *** [getConn] *)

(** [for _, node := range nodes[1:]], with [cn] and [preNode]. *)
Fixpoint getConn_range (preNode : Node) (cn : ConnID) (rest : list Node)
  : M (net_Conn * error) :=
  match rest with
  | [] => ret (Some cn, None)
  | node :: rest' =>
      pcl <- the_Client preNode;;
      r <- do_Connect pcl (Some cn) (Addr node);;
      match r with
      | Fail err =>
          do_Close (Some cn);; do_MarkDead node;; ret (None, Some err)
      | Ok cc =>
          cl <- the_Client node;;
          r <- do_Handshake cl (Some cc) (HandshakeOptions node);;
          match r with
          | Fail err =>
              do_Close (Some cn);; do_MarkDead node;; ret (None, Some err)
          | Ok cc =>
              do_ResetDead node;;
              getConn_range node cc rest'
          end
      end
  end.

Definition getConn (c : ptr_Chain) : M (net_Conn * error) :=
  if IsEmpty c then ret (None, Some ErrEmptyChain)
  else
    match c with
    | None => panic
    | Some ch =>
        match Nodes ch with
        | [] => panic (* nodes[0] *)
        | node :: rest =>
            cl <- the_Client node;;
            r <- do_Dial cl (Addr node) (DialOptions node);;
            match r with
            | Fail err => do_MarkDead node;; ret (None, Some err)
            | Ok cn =>
                r <- do_Handshake cl (Some cn) (HandshakeOptions node);;
                match r with
                | Fail err => do_MarkDead node;; ret (None, Some err)
                | Ok cn =>
                    do_ResetDead node;;
                    getConn_range node cn rest
                end
            end
        end
    end.

(** *** [dial], [Dial] and [Conn] *)

Definition dial (c : Chain) (addr : string) : M (net_Conn * error) :=
  '(route, err) <- selectRoute c;;
  match err with
  | Some e => ret (None, Some e)
  | None =>
      '(conn, err) <- getConn route;;
      match err with
      | Some e => ret (None, Some e)
      | None =>
          last <- lift (LastNode route);;
          cl <- the_Client last;;
          r <- do_Connect cl conn addr;;
          match r with
          | Fail e => do_Close conn;; ret (None, Some e)
          | Ok cc => ret (Some cc, None)
          end
      end
  end.

(** [for i := 0; i < c.Retries+1; i++] of [Dial]: [n] iterations are
    left, [conn] and [err] are the named results. *)
Fixpoint Dial_for (n : nat) (c : Chain) (addr : string)
         (conn : net_Conn) (err : error) : M (net_Conn * error) :=
  match n with
  | O => ret (conn, err)
  | S n' =>
      '(conn, err) <- dial c addr;;
      match err with
      | None => ret (conn, err) (* break *)
      | Some _ => Dial_for n' c addr conn err
      end
  end.

(** The number of iterations of [for i := 0; i < bound; i++]. *)
Definition iterations (bound : Z) : nat := Z.to_nat bound.

Definition to_pair (r : result ConnID) : net_Conn * error :=
  match r with
  | Ok cn => (Some cn, None)
  | Fail e => (None, Some e)
  end.

Definition Dial (c : ptr_Chain) (addr : string) : M (net_Conn * error) :=
  if IsEmpty c then
    r <- call (ENetDialTimeout "tcp" addr DialTimeout)
              (net_DialTimeout "tcp" addr DialTimeout);;
    ret (to_pair r)
  else
    match c with
    | None => panic
    | Some ch =>
        Dial_for (iterations (GoInt.add (Retries ch) 1)) ch addr None None
    end.

(** The loop of [Conn]; [continue] goes to the next iteration with the
    named results as they are. *)
Fixpoint Conn_for (n : nat) (c : Chain) (conn : net_Conn) (err : error)
  : M (net_Conn * error) :=
  match n with
  | O => ret (conn, err)
  | S n' =>
      '(route, err) <- selectRoute c;;
      match err with
      | Some _ => Conn_for n' c conn err (* continue *)
      | None =>
          '(conn, err) <- getConn route;;
          match err with
          | Some _ => Conn_for n' c conn err (* continue *)
          | None => ret (conn, err) (* break *)
          end
      end
  end.

Definition Conn (c : ptr_Chain) : M (net_Conn * error) :=
  match c with
  | None => panic (* c.Retries *)
  | Some ch =>
      Conn_for (iterations (GoInt.add (Retries ch) 1)) ch None None
  end.

End Chain.

(** ** A concrete world

    A small simulation of the collaborators, to run the chain on concrete
    inputs: dialing fails while a failure budget lasts or when the address
    is ["down"], a handshake fails when asked to (option ["reject"]),
    connecting through fails towards ["unreachable"], and a group selects
    its first node that is not marked dead. *)

Module Sim.

Record World : Type := {
  budget : nat;          (* dials that will still fail *)
  fresh : ConnID;        (* the next connection handle *)
  dead : list Z;         (* IDs of the nodes marked dead *)
  closed : list ConnID   (* connections closed so far *)
}.

Definition is_dead (w : World) (n : Node) : bool :=
  existsb (Z.eqb (nodeID n)) (dead w).

Definition open_conn (w : World) : result ConnID * World :=
  (Ok (fresh w),
   {| budget := budget w; fresh := S (fresh w);
      dead := dead w; closed := closed w |}).

Definition next (group : NodeGroup) (w : World) : result Node * World :=
  match filter (fun n => negb (is_dead w n)) (nodes group) with
  | n :: _ => (Ok n, w)
  | [] => (Fail (ErrOther "no node available"), w)
  end.

Definition dial_to (cl : Client) (addr : string) (opts : list DialOption)
           (w : World) : result ConnID * World :=
  match budget w with
  | S b =>
      (Fail (ErrOther "dial refused"),
       {| budget := b; fresh := fresh w;
          dead := dead w; closed := closed w |})
  | O =>
      if String.eqb addr "down" then (Fail (ErrOther "dial refused"), w)
      else open_conn w
  end.

Definition rejects (o : HandshakeOption) : bool :=
  let 'HandshakeOpt name := o in String.eqb name "reject".

Definition handshake (cl : Client) (cn : net_Conn)
           (opts : list HandshakeOption) (w : World)
  : result ConnID * World :=
  match cn with
  | None => (Fail (ErrOther "no connection"), w)
  | Some c =>
      if existsb rejects opts then (Fail (ErrOther "handshake rejected"), w)
      else (Ok c, w)
  end.

Definition connect (cl : Client) (cn : net_Conn) (addr : string)
           (w : World) : result ConnID * World :=
  if String.eqb addr "unreachable"
  then (Fail (ErrOther "connect failed"), w)
  else open_conn w.

Definition close (c : ConnID) (w : World) : World :=
  {| budget := budget w; fresh := fresh w;
     dead := dead w; closed := c :: closed w |}.

Definition mark_dead (n : Node) (w : World) : World :=
  {| budget := budget w; fresh := fresh w;
     dead := nodeID n :: dead w; closed := closed w |}.

Definition reset_dead (n : Node) (w : World) : World :=
  {| budget := budget w; fresh := fresh w;
     dead := filter (fun i => negb (Z.eqb (nodeID n) i)) (dead w);
     closed := closed w |}.

#[global] Instance world : Collaborators World := {
  group_Next := next;
  Client_Dial := dial_to;
  Client_Handshake := handshake;
  Client_Connect := connect;
  Conn_Close := close;
  Node_MarkDead := mark_dead;
  Node_ResetDead := reset_dead;
  net_DialTimeout := fun _ _ _ => open_conn;
  Node_String := Addr;
  DialTimeout := 30;
  Debug := false
}.

Definition init (failures : nat) : State World :=
  {| ext := {| budget := failures; fresh := 1%nat; dead := []; closed := [] |};
     trace := []; logged := [] |}.

Definition tcp : Client :=
  {| Connector := "http"; Transporter_of := {| trName := "tcp"; Multiplex := false |} |}.
Definition h2 : Client :=
  {| Connector := "http2"; Transporter_of := {| trName := "h2"; Multiplex := true |} |}.

Definition hop (id : Z) (addr : string) (cl : Client) : Node :=
  Build_Node id addr [] [] (Some cl).

Definition hopA : Node := hop 1 "a:8080" h2.
Definition hopB : Node := hop 2 "b:8080" tcp.
Definition hopC : Node := hop 3 "c:8080" tcp.
Definition hopFar : Node := hop 5 "unreachable" tcp.
Definition hopRude : Node :=
  Build_Node 6 "r:8080" [] [HandshakeOpt "reject"] (Some tcp).

(** groups [{hopA}] (multiplexing) and [{hopB}] *)
Definition G0 : NodeGroup := Build_NodeGroup 10 [hopA].
Definition G1 : NodeGroup := Build_NodeGroup 11 [hopB].

Definition chainAB : Chain := Build_Chain false 0 [G0; G1].

(** a group of three interchangeable hops, and a chain that may retry
    twice *)
Definition hopD : Node := hop 7 "d:8080" tcp.
Definition G3 : NodeGroup := Build_NodeGroup 12 [hopB; hopC; hopD].
Definition chain3 : Chain := Build_Chain false 2 [G3].

End Sim.

(** ** Vocabulary of the properties *)

(** An attempt failed when it returned a non-nil error. *)
Definition failed (r : net_Conn * error) : bool :=
  match snd r with
  | Some _ => true
  | None => false
  end.

(** "Retry up to [n] times, return on first success": the attempts that
    are made, in order, each with the state it leaves behind.  An attempt
    starts in the state the previous one left; nothing is attempted after
    a success (or a panic). *)
Fixpoint attempts {X} (attempt : M X (net_Conn * error)) (n : nat)
         (s : State X) : list (outcome (net_Conn * error) * State X) :=
  match n with
  | O => []
  | S n' =>
      let r := attempt s in
      r :: match fst r with
           | Ret a => if failed a then attempts attempt n' (snd r) else []
           | Panic => []
           end
  end.

(** One attempt of [Conn]: resolve a route, build its connection. *)
Definition Conn_attempt {X} `{Collaborators X} (c : Chain)
  : M X (net_Conn * error) :=
  '(route, err) <- selectRoute c;;
  match err with
  | Some e => ret (None, Some e)
  | None => getConn route
  end.

(** The states in which the attempts of a log start: the first in [s],
    each other one where the attempt before it stopped. *)
Fixpoint starts {X A} (s : State X) (log : list (A * State X))
  : list (State X) :=
  match log with
  | [] => []
  | entry :: rest => s :: starts (snd entry) rest
  end.

(** [s'] is [s] after the calls [evs], in this order. *)
Definition emits {X} (s s' : State X) (evs : list Event) : Prop :=
  trace s' = trace s ++ evs.

(** The nodes marked dead, and those reset, by a sequence of calls. *)
Fixpoint marked (evs : list Event) : list Node :=
  match evs with
  | [] => []
  | EMarkDead n :: rest => n :: marked rest
  | _ :: rest => marked rest
  end.

Fixpoint resets (evs : list Event) : list Node :=
  match evs with
  | [] => []
  | EResetDead n :: rest => n :: resets rest
  | _ :: rest => resets rest
  end.

(** The connections closed by a sequence of calls. *)
Fixpoint closes (evs : list Event) : list ConnID :=
  match evs with
  | [] => []
  | EClose c :: rest => c :: closes rest
  | _ :: rest => closes rest
  end.

(** Every group holds exactly one node. *)
Definition singleton_groups (c : Chain) : Prop :=
  Forall (fun g => List.length (nodes g) = 1%nat) (nodeGroups c).

(** A well-formed resolved route. *)
Definition route_ok (c : Chain) : Prop :=
  isRoute c = true /\ singleton_groups c.

(** The invariant of the data model: a chain marked as a route has only
    singleton groups. *)
Definition route_inv (c : Chain) : Prop :=
  isRoute c = true -> singleton_groups c.

(** A Go result pair that does not carry a connection next to an error. *)
Definition no_conn_with_error (o : outcome (net_Conn * error)) : Prop :=
  match o with
  | Ret (Some _, Some _) => False
  | _ => True
  end.

(** What a retry loop of budget [n] owes its caller, given the log of the
    attempts it made and its result [res]: at least one attempt and at
    most [n]; every attempt before the last failed; the result is that of
    the last attempt, which is the first success, or else the [n]-th
    failure, whose error is returned without a connection. *)
Definition first_success_or_last_error {X} (n : nat)
           (log : list (outcome (net_Conn * error) * State X))
           (res : outcome (net_Conn * error) * State X) : Prop :=
  (1 <= List.length log <= n)%nat /\
  (exists pre,
      log = pre ++ [res] /\
      Forall (fun a => exists e, fst a = Ret (None, Some e)) pre) /\
  match fst res with
  | Ret (_, None) => True
  | Ret (conn, Some _) => conn = None /\ List.length log = n
  | Panic => True
  end.

(** The ways in which the loop of [getConn] fails at a node: the previous
    node's client, [pcl], cannot connect through the current connection
    [cn] to the node's address, or it can and the handshake on the new
    connection fails.  [x] is the collaborators' state before, [x'] after;
    the last index lists the calls made. *)
Inductive hop_fails {X} `{Collaborators X}
          (pcl : Client) (cn : ConnID) (node : Node) (x : X)
  : Err -> X -> list Event -> Prop :=
| connect_fails e x' :
    Client_Connect pcl (Some cn) (Addr node) x = (Fail e, x') ->
    hop_fails pcl cn node x e x' [EConnect pcl (Some cn) (Addr node)]
| handshake_fails cc x1 cl e x' :
    Client_Connect pcl (Some cn) (Addr node) x = (Ok cc, x1) ->
    Client_of_node node = Some cl ->
    Client_Handshake cl (Some cc) (HandshakeOptions node) x1 = (Fail e, x') ->
    hop_fails pcl cn node x e x'
              [EConnect pcl (Some cn) (Addr node);
               EHandshake cl (Some cc) (HandshakeOptions node)].

(** The routes the code builds: [newRoute], then [Retries] assignments
    and [AddNode] calls. *)
Inductive built_route : Chain -> Prop :=
| built_newRoute ns : built_route (newRoute ns)
| built_set_Retries r n : built_route r -> built_route (set_Retries r n)
| built_AddNode r ns r' :
    built_route r -> AddNode (Some r) ns = Some r' -> built_route r'.

(** A node that some group selects in some state of the collaborators. *)
Definition selectable {X} `{Collaborators X} (n : Node) : Prop :=
  exists g x x', group_Next g x = (Ok n, x').

(** How a selected node [n] enters a route: as it is, or, at a cutover,
    with the route sealed there appended to its dial options. *)
Definition placed (n n' : Node) : Prop :=
  n' = n
  \/ exists sealed,
      built_route sealed
      /\ n' = append_DialOption n (ChainDialOption (Some sealed)).

Definition hops_placed {X} `{Collaborators X} (r : Chain) : Prop :=
  Forall (fun n' => exists n, selectable n /\ placed n n') (Nodes r).


(** A computation that only ever adds calls to the trace. *)
Definition grows {X A} (m : M X A) : Prop :=
  forall s, exists evs, trace (snd (m s)) = trace s ++ evs.

(** The addresses a sequence of calls reaches out to, by dialing or by
    connecting through, in order. *)
Fixpoint contacted (evs : list Event) : list string :=
  match evs with
  | [] => []
  | EDial _ addr _ :: rest => addr :: contacted rest
  | EConnect _ _ addr :: rest => addr :: contacted rest
  | _ :: rest => contacted rest
  end.

(** The groups asked to select a node by a sequence of calls. *)
Fixpoint asked (evs : list Event) : list NodeGroup :=
  match evs with
  | [] => []
  | ENext g :: rest => g :: asked rest
  | _ :: rest => asked rest
  end.

(** [node.Client.Transporter.Multiplex()], for a node that has a client. *)
Definition is_multiplex (n : Node) : bool :=
  match Client_of_node n with
  | Some cl => Multiplex (Transporter_of cl)
  | None => false
  end.

Definition has_client (n : Node) : Prop := Client_of_node n <> None.

(** The nodes the groups select when asked one after the other, starting
    in the state [x], up to the first group that fails. *)
Fixpoint selections {X} `{Collaborators X} (groups : list NodeGroup) (x : X)
  : list Node :=
  match groups with
  | [] => []
  | g :: rest =>
      match group_Next g x with
      | (Ok n, x') => n :: selections rest x'
      | (Fail _, _) => []
      end
  end.

(** A computation that adds calls to the trace, none of which asks a
    group to select. *)
Definition quiet {X A} (m : M X A) : Prop :=
  forall s, exists evs, trace (snd (m s)) = trace s ++ evs /\ asked evs = [].

(** A group that holds at least one node. *)
Definition has_nodes (g : NodeGroup) : bool :=
  match nodes g with
  | [] => false
  | _ :: _ => true
  end.

(** What a run of the connection builder over the nodes [hops] has done,
    given its outcome [o] and the calls [evs] it made.  On success every
    node was reset, in order, none was marked dead, nothing was closed and
    the addresses were reached in the order of the nodes.  On failure the
    nodes split into those reset, the one marked dead, which was the last
    one reached and whose marking is the last call, and those never
    reached; [nclosed] tells how many connections were closed.  A panic
    leaves a prefix of the addresses reached. *)
Definition build_run (nclosed : list Node -> nat) (hops : list Node)
           (o : outcome (net_Conn * error)) (evs : list Event) : Prop :=
  match o with
  | Ret (Some _, None) =>
      marked evs = [] /\ resets evs = hops /\ closes evs = []
      /\ contacted evs = map Addr hops
  | Ret (None, Some _) =>
      exists pre hi post,
        hops = pre ++ hi :: post
        /\ marked evs = [hi] /\ resets evs = pre
        /\ List.length (closes evs) = nclosed pre
        /\ contacted evs = map Addr (pre ++ [hi])
        /\ exists evs0, evs = evs0 ++ [EMarkDead hi]
  | Ret _ => False
  | Panic => exists more, map Addr hops = contacted evs ++ more
  end.

(** [getConn] closes nothing when its first node fails, and one
    connection when a later one does. *)
Definition closed_on_failure (pre : list Node) : nat :=
  match pre with
  | [] => 0%nat
  | _ :: _ => 1%nat
  end.

(** How the nodes [ns] of a resolved route relate to the nodes selected,
    [pre ++ suf]: the route is made of the last segment, [suf], placed.
    Every node after its head is as selected and not multiplexing; the
    head is multiplexing when a segment [pre] was cut off before it, and
    is as selected when it is not multiplexing. *)
Definition segment (pre suf ns : list Node) : Prop :=
  Forall2 placed suf ns
  /\ tl ns = tl suf
  /\ Forall (fun n => is_multiplex n = false) (tl suf)
  /\ (pre <> [] -> exists h, hd_error suf = Some h /\ is_multiplex h = true)
  /\ (forall h, hd_error suf = Some h -> is_multiplex h = false ->
               hd_error ns = Some h)
  /\ (suf = [] -> pre = []).

(** The route after one more selected node: a multiplexing node starts a
    new route, of the same retry count, and carries the route so far in
    its dial options; any other node is added to the route so far. *)
Definition resolve_step (retries : Z) (route : Chain) (n : Node) : Chain :=
  if is_multiplex n then
    Build_Chain true retries
      [NewNodeGroup [append_DialOption n (ChainDialOption (Some route))]]
  else
    Build_Chain (isRoute route) (Retries route)
                (nodeGroups route ++ [NewNodeGroup [n]]).

(** The route resolved from the nodes selected, in order. *)
Definition resolve (retries : Z) (sel : list Node) : Chain :=
  fold_left (resolve_step retries) sel (Build_Chain true retries []).

(** An attempt that starts in [start] and leaves [entry] builds the chain
    [ch] itself: it asks no group, its calls begin with those of [getConn]
    run on [ch] in [start], and the addresses it dials or connects through
    to are, in order, a prefix of the addresses of the nodes of [ch]
    followed by [target]. *)
Definition dials_route {X} `{Collaborators X} (ch : Chain)
           (target : list string) (start : State X)
           (entry : outcome (net_Conn * error) * State X) : Prop :=
  exists evs evs' more,
    emits start (snd entry) evs
    /\ asked evs = []
    /\ map Addr (Nodes ch) ++ target = contacted evs ++ more
    /\ trace (snd entry) = trace (snd (getConn (Some ch) start)) ++ evs'.

(** * Properties *)

(** ** Go's [int] *)

Lemma GoInt_wrap_in_range z : GoInt.in_range z -> GoInt.wrap z = z.
Proof.
  unfold GoInt.in_range, GoInt.wrap, GoInt.min_int, GoInt.max_int, GoInt.bits.
  intros Hz. rewrite Z.mod_small; lia.
Qed.

Lemma GoInt_add_one r :
  GoInt.min_int <= r < GoInt.max_int -> GoInt.add r 1 = r + 1.
Proof.
  intros Hr. unfold GoInt.add. apply GoInt_wrap_in_range.
  unfold GoInt.in_range, GoInt.min_int, GoInt.max_int, GoInt.bits in *. lia.
Qed.

Lemma GoInt_add_one_max : GoInt.add GoInt.max_int 1 = GoInt.min_int.
Proof. reflexivity. Qed.

Lemma iterations_negative r :
  GoInt.min_int <= r < 0 -> iterations (GoInt.add r 1) = O.
Proof.
  intros Hr. rewrite GoInt_add_one.
  - unfold iterations. destruct (r + 1) eqn:E; try reflexivity; lia.
  - unfold GoInt.max_int, GoInt.bits. lia.
Qed.

Lemma iterations_budget r :
  0 <= r < GoInt.max_int -> iterations (GoInt.add r 1) = S (Z.to_nat r).
Proof.
  intros Hr. rewrite GoInt_add_one.
  - unfold iterations. rewrite Z2Nat.inj_add by lia. simpl. lia.
  - unfold GoInt.min_int, GoInt.bits in *. lia.
Qed.

Ltac unfold_calls :=
  unfold do_Next, do_Dial, do_Handshake, do_Connect, do_Close,
    do_MarkDead, do_ResetDead, the_Client, lift, call, act, bind, ret, panic.

Ltac split_run :=
  repeat (cbn;
          match goal with
          | |- context [match ?t with _ => _ end] =>
              lazymatch t with
              | context [getConn_range] => fail
              | _ => destruct t eqn:?
              end
          end).

Section ChainFacts.

Context {X : Type} `{Collaborators X}.

(** *** Stepping through the monad *)

Lemma bind_Ret {A B} (m : M X A) (k : A -> M X B) s a s' :
  m s = (Ret a, s') -> bind m k s = k a s'.
Proof. intros E. unfold bind. rewrite E. reflexivity. Qed.

Lemma IsEmpty_Some_false ch :
  nodeGroups ch <> [] -> IsEmpty (Some ch) = false.
Proof. simpl. destruct (nodeGroups ch); congruence. Qed.

(** *** Resolved routes are left alone *)

Lemma selectRoute_isRoute c (s : State X) :
  isRoute c = true -> selectRoute c s = (Ret (Some c, None), s).
Proof. intros E. unfold selectRoute. rewrite E. reflexivity. Qed.

(** *** The retry loops and the log of attempts *)

Lemma last_cons {A} (l : list A) a d : last (a :: l) d = last l a.
Proof.
  revert a d. induction l as [|b l IH]; intros a d; [reflexivity|].
  change (last (a :: b :: l) d) with (last (b :: l) d).
  rewrite !IH. reflexivity.
Qed.

Lemma Dial_for_attempts n c addr conn err (s : State X) :
  Dial_for n c addr conn err s
  = last (attempts (dial c addr) n s) (Ret (conn, err), s).
Proof.
  revert conn err s. induction n as [|n IH]; intros conn err s.
  - reflexivity.
  - cbn [Dial_for attempts]. unfold bind at 1.
    destruct (dial c addr s) as [[[conn' [e|]]|] s1]; cbn.
    + rewrite IH. destruct (attempts (dial c addr) n s1) as [|p l];
        [reflexivity | rewrite !last_cons; reflexivity].
    + reflexivity.
    + reflexivity.
Qed.

(** *** No connection is returned next to an error *)

Lemma getConn_range_shape rest :
  forall preNode cn (s : State X),
    no_conn_with_error (fst (getConn_range preNode cn rest s)).
Proof.
  induction rest as [|node rest IH]; intros preNode cn s.
  - exact I.
  - cbn [getConn_range]. unfold_calls. split_run; try exact I.
    apply IH.
Qed.

Lemma getConn_shape c (s : State X) :
  no_conn_with_error (fst (getConn c s)).
Proof.
  unfold getConn. destruct (IsEmpty c); [exact I|].
  destruct c as [ch|]; [|exact I].
  destruct (Nodes ch) as [|node rest]; [exact I|].
  unfold_calls. split_run; try exact I.
  apply getConn_range_shape.
Qed.

Lemma dial_shape c addr (s : State X) :
  no_conn_with_error (fst (dial c addr s)).
Proof.
  unfold dial. unfold bind at 1.
  destruct (selectRoute c s) as [[[route [e|]]|] s1]; cbn; try exact I.
  unfold bind at 1.
  destruct (getConn route s1) as [[[conn [e|]]|] s2]; cbn; try exact I.
  unfold_calls. split_run; exact I.
Qed.

Lemma Conn_attempt_shape c (s : State X) :
  no_conn_with_error (fst (Conn_attempt c s)).
Proof.
  unfold Conn_attempt. unfold bind at 1.
  destruct (selectRoute c s) as [[[route [e|]]|] s1]; cbn; try exact I.
  apply getConn_shape.
Qed.

Lemma Conn_attempt_eq c (s : State X) :
  Conn_attempt c s
  = match selectRoute c s with
    | (Ret (_, Some e), s1) => (Ret (None, Some e), s1)
    | (Ret (route, None), s1) => getConn route s1
    | (Panic, s1) => (Panic, s1)
    end.
Proof.
  unfold Conn_attempt, bind.
  destruct (selectRoute c s) as [[[route [e|]]|] s1]; reflexivity.
Qed.

Lemma Conn_for_S n c conn err (s : State X) :
  Conn_for (S n) c conn err s
  = match selectRoute c s with
    | (Ret (_, Some e), s1) => Conn_for n c conn (Some e) s1
    | (Ret (route, None), s1) =>
        match getConn route s1 with
        | (Ret (conn', Some e), s2) => Conn_for n c conn' (Some e) s2
        | (Ret (conn', None), s2) => (Ret (conn', None), s2)
        | (Panic, s2) => (Panic, s2)
        end
    | (Panic, s1) => (Panic, s1)
    end.
Proof.
  cbn [Conn_for]. unfold bind.
  destruct (selectRoute c s) as [[[route [e|]]|] s1]; try reflexivity.
  destruct (getConn route s1) as [[[conn' [e|]]|] s2]; reflexivity.
Qed.

Lemma Conn_for_attempts n c err (s : State X) :
  Conn_for n c None err s
  = last (attempts (Conn_attempt c) n s) (Ret (None, err), s).
Proof.
  revert err s. induction n as [|n IH]; intros err s.
  - reflexivity.
  - rewrite Conn_for_S. cbn [attempts]. rewrite Conn_attempt_eq.
    destruct (selectRoute c s) as [[[route [e|]]|] s1]; cbn.
    + rewrite IH. destruct (attempts (Conn_attempt c) n s1) as [|p l];
        [reflexivity | rewrite !last_cons; reflexivity].
    + pose proof (getConn_shape route s1) as G.
      destruct (getConn route s1) as [[[conn [e|]]|] s2]; cbn.
      * destruct conn as [cn|]; [destruct G|].
        rewrite IH. destruct (attempts (Conn_attempt c) n s2) as [|p l];
          [reflexivity | rewrite !last_cons; reflexivity].
      * reflexivity.
      * reflexivity.
    + reflexivity.
Qed.

(** A loop that returns the last entry of its log of attempts behaves
    as a retry loop should, whatever the attempt is, as long as the
    attempt never returns a connection next to an error. *)
Lemma attempts_retry (attempt : M X (net_Conn * error)) :
  (forall s, no_conn_with_error (fst (attempt s))) ->
  forall n s d,
    first_success_or_last_error
      (S n) (attempts attempt (S n) s) (last (attempts attempt (S n) s) d).
Proof.
  intros Hshape.
  assert (Hone : forall m s r,
             attempts attempt (S m) s = [r] ->
             match fst r with
             | Ret (conn, Some _) => conn = None /\ m = O
             | _ => True
             end ->
             forall d, first_success_or_last_error
                    (S m) (attempts attempt (S m) s)
                    (last (attempts attempt (S m) s) d)).
  { intros m s r E Hr d. rewrite E. cbn [last].
    split; [cbn; lia|]. split.
    - exists []. split; [reflexivity|constructor].
    - destruct (fst r) as [[conn [e|]]|]; try exact I.
      destruct Hr as [-> ->]. split; reflexivity. }
  induction n as [|n IH]; intros s d.
  - apply Hone with (r := attempt s).
    + cbn [attempts]. destruct (fst (attempt s)) as [a|]; [|reflexivity].
      destruct (failed a); reflexivity.
    + pose proof (Hshape s) as Hs.
      destruct (fst (attempt s)) as [[[cn|] [e|]]|]; cbn in *; tauto.
  - pose proof (Hshape s) as Hs.
    destruct (attempt s) as [[[conn [e|]]|] s1] eqn:E.
    + destruct conn; [destruct Hs|].
      assert (El : attempts attempt (S (S n)) s
                   = (Ret (None, Some e), s1) :: attempts attempt (S n) s1).
      { remember (S n) as m. cbn [attempts]. rewrite E. reflexivity. }
      rewrite El, last_cons.
      destruct (IH s1 (Ret (None, Some e), s1))
        as (Hlen & (pre & Hpre & Hall) & Hres).
      set (log := attempts attempt (S n) s1) in *.
      split; [cbn [List.length]; lia|]. split.
      * exists ((Ret (None, Some e), s1) :: pre). split.
        -- cbn [app]. rewrite <- Hpre. reflexivity.
        -- constructor; [exists e; reflexivity | exact Hall].
      * destruct (fst (last log (Ret (None, Some e), s1))) as [[c0 [e0|]]|];
          try exact I.
        destruct Hres as [-> Hn]. split; [reflexivity|].
        cbn [List.length]. lia.
    + apply Hone with (r := (Ret (conn, None), s1)).
      * remember (S n) as m. cbn [attempts]. rewrite E. reflexivity.
      * exact I.
    + apply Hone with (r := (Panic, s1)).
      * remember (S n) as m. cbn [attempts]. rewrite E. reflexivity.
      * exact I.
Qed.

Lemma attempts_last_shape (attempt : M X (net_Conn * error)) :
  (forall s, no_conn_with_error (fst (attempt s))) ->
  forall n s d,
    no_conn_with_error (fst d) ->
    no_conn_with_error (fst (last (attempts attempt n s) d)).
Proof.
  intros Hshape. induction n as [|n IH]; intros s d Hd; [exact Hd|].
  cbn [attempts]. rewrite last_cons.
  destruct (fst (attempt s)) as [a|] eqn:E.
  - destruct (failed a).
    + apply IH, Hshape.
    + apply Hshape.
  - apply Hshape.
Qed.

(** Neither [Dial] nor [Conn] returns a connection next to an error. *)
Lemma Dial_shape c addr (s : State X) :
  no_conn_with_error (fst (Dial c addr s)).
Proof.
  unfold Dial. destruct (IsEmpty c).
  - unfold bind, call, ret.
    destruct (net_DialTimeout "tcp" addr DialTimeout (ext s)) as [[cn|e] x];
      exact I.
  - destruct c as [ch|]; [|exact I].
    rewrite Dial_for_attempts. apply attempts_last_shape; [|exact I].
    intros s0. apply dial_shape.
Qed.

Lemma Conn_shape c (s : State X) : no_conn_with_error (fst (Conn c s)).
Proof.
  destruct c as [ch|]; [|exact I]. unfold Conn.
  rewrite Conn_for_attempts. apply attempts_last_shape; [|exact I].
  intros s0. apply Conn_attempt_shape.
Qed.

End ChainFacts.

(** ** The retry budget *)

Section Retry.

Context {X : Type} `{Collaborators X}.

(** C4, for budgets that [Retries + 1] can hold.  With
    [0 <= Retries < max_int], [Dial] on a non-empty chain makes between
    one and [Retries + 1] attempts ([dial]), each starting where the
    previous one stopped; all attempts before the last one failed; the
    result is the result of the last attempt: the first success, or the
    error of attempt [Retries + 1], without a connection.  [Conn] does
    the same with its own attempts (resolve a route, build it). *)
Theorem retry_first_success_or_last_error ch addr (s : State X) :
  nodeGroups ch <> [] ->
  0 <= Retries ch < GoInt.max_int ->
  let n := S (Z.to_nat (Retries ch)) in
  first_success_or_last_error
    n (attempts (dial ch addr) n s) (Dial (Some ch) addr s)
  /\ first_success_or_last_error
       n (attempts (Conn_attempt ch) n s) (Conn (Some ch) s).
Proof.
  intros Hne Hr n. split.
  - unfold Dial. rewrite IsEmpty_Some_false by assumption.
    rewrite iterations_budget by assumption.
    rewrite Dial_for_attempts. apply attempts_retry.
    intros s0. apply dial_shape.
  - unfold Conn. rewrite iterations_budget by assumption.
    rewrite Conn_for_attempts. apply attempts_retry.
    intros s0. apply Conn_attempt_shape.
Qed.

(** C10: a negative retry count leaves nothing to do.  [Dial] and [Conn]
    return a nil connection and a nil error, and the state is as it
    was: no selection, no dial, no handshake. *)
Theorem negative_retries_no_attempt ch addr (s : State X) :
  nodeGroups ch <> [] ->
  GoInt.min_int <= Retries ch < 0 ->
  Dial (Some ch) addr s = (Ret (None, None), s)
  /\ Conn (Some ch) s = (Ret (None, None), s).
Proof.
  intros Hne Hr. split.
  - unfold Dial. rewrite IsEmpty_Some_false by assumption.
    rewrite iterations_negative by assumption. reflexivity.
  - unfold Conn. rewrite iterations_negative by assumption. reflexivity.
Qed.

End Retry.

(** At the largest [int], [Retries + 1] wraps around to the smallest one
    and the loop body never runs: [Dial] makes no attempt at all and
    returns neither a connection nor an error, although an attempt would
    have succeeded.  No retry budget explains this result. *)
Lemma retry_budget_wraps :
  let ch := Build_Chain false GoInt.max_int [Sim.G3] in
  nodeGroups ch <> [] /\ 0 <= Retries ch /\
  Dial (Some ch) "dst:80" (Sim.init 0) = (Ret (None, None), Sim.init 0) /\
  fst (dial ch "dst:80" (Sim.init 0)) = Ret (Some 2%nat, None) /\
  forall n,
    ~ first_success_or_last_error
        n (attempts (dial ch "dst:80") n (Sim.init 0))
        (Dial (Some ch) "dst:80" (Sim.init 0)).
Proof.
  cbv zeta. split; [discriminate|]. split; [vm_compute; discriminate|].
  assert (E : Dial (Some (Build_Chain false GoInt.max_int [Sim.G3])) "dst:80"
                   (Sim.init 0) = (Ret (None, None), Sim.init 0))
    by (vm_compute; reflexivity).
  assert (D : fst (dial (Build_Chain false GoInt.max_int [Sim.G3]) "dst:80"
                        (Sim.init 0)) = Ret (Some 2%nat, None))
    by (vm_compute; reflexivity).
  split; [exact E|]. split; [exact D|].
  intros n. rewrite E. intros (Hlen & (pre & Hpre & _) & _).
  destruct n as [|n].
  - cbn in Hlen. lia.
  - cbn [attempts] in Hpre. rewrite D in Hpre. cbn [failed snd] in Hpre.
    destruct pre as [|p [|q pre]]; cbn [app] in Hpre.
    + apply (f_equal (fun l => match l with
                               | x :: _ => fst x
                               | [] => Panic
                               end)) in Hpre.
      cbn beta iota in Hpre. rewrite D in Hpre. discriminate Hpre.
    + discriminate Hpre.
    + discriminate Hpre.
Qed.

Lemma retry_first_success_or_last_error_witness :
  nodeGroups Sim.chain3 <> [] /\
  0 <= Retries Sim.chain3 < GoInt.max_int /\
  (first_success_or_last_error
     3 (attempts (dial Sim.chain3 "dst:80") 3 (Sim.init 2))
     (Dial (Some Sim.chain3) "dst:80" (Sim.init 2))
   /\ first_success_or_last_error
        3 (attempts (Conn_attempt Sim.chain3) 3 (Sim.init 2))
        (Conn (Some Sim.chain3) (Sim.init 2))).
Proof.
  split; [discriminate|]. split; [vm_compute; split; congruence|].
  apply (retry_first_success_or_last_error Sim.chain3 "dst:80" (Sim.init 2)).
  - discriminate.
  - vm_compute; split; congruence.
Defined.

Lemma negative_retries_no_attempt_witness :
  let ch := Build_Chain false (-1) [Sim.G3] in
  nodeGroups ch <> [] /\
  GoInt.min_int <= Retries ch < 0 /\
  Dial (Some ch) "dst:80" (Sim.init 0) = (Ret (None, None), Sim.init 0) /\
  Conn (Some ch) (Sim.init 0) = (Ret (None, None), Sim.init 0).
Proof.
  cbv zeta. split; [discriminate|]. split; [vm_compute; split; congruence|].
  apply (negative_retries_no_attempt
           (Build_Chain false (-1) [Sim.G3]) "dst:80" (Sim.init 0)).
  - discriminate.
  - vm_compute; split; congruence.
Defined.

(** ** Resolved routes and empty chains *)

Section Empty.

Context {X : Type} `{Collaborators X}.

(** C6: [selectRoute] on a chain marked as a route returns this very
    chain and a nil error, and leaves the state as it was: no group is
    asked to select, no node is marked or reset, no dial option is
    added.  Resolving again changes nothing. *)
Theorem selectRoute_route_unchanged c (s : State X) :
  isRoute c = true ->
  selectRoute c s = (Ret (Some c, None), s)
  /\ bind (selectRoute c)
          (fun r => match fst r with
                    | Some c' => selectRoute c'
                    | None => ret r
                    end) s
     = (Ret (Some c, None), s).
Proof.
  intros E. split.
  - apply selectRoute_isRoute, E.
  - erewrite bind_Ret by (apply selectRoute_isRoute, E).
    cbn. apply selectRoute_isRoute, E.
Qed.

(** C7: on an empty chain (nil, or without groups) [Dial] makes one
    call, [net.DialTimeout("tcp", addr, DialTimeout)], and returns its
    result; this call is all that is added to the trace. *)
Theorem Dial_empty_direct c addr (s : State X) :
  IsEmpty c = true ->
  Dial c addr s
  = (Ret (to_pair (fst (net_DialTimeout "tcp" addr DialTimeout (ext s)))),
     {| ext := snd (net_DialTimeout "tcp" addr DialTimeout (ext s));
        trace := trace s ++ [ENetDialTimeout "tcp" addr DialTimeout];
        logged := logged s |}).
Proof.
  intros E. unfold Dial. rewrite E. unfold bind, call, ret, record.
  destruct (net_DialTimeout "tcp" addr DialTimeout (ext s)) as [r x].
  reflexivity.
Qed.

Lemma getConn_empty c (s : State X) :
  IsEmpty c = true -> getConn c s = (Ret (None, Some ErrEmptyChain), s).
Proof. intros E. unfold getConn. rewrite E. reflexivity. Qed.

Lemma selectRoute_no_groups ch (s : State X) :
  nodeGroups ch = [] ->
  exists r s',
    selectRoute ch s = (Ret (Some r, None), s')
    /\ nodeGroups r = [] /\ ext s' = ext s /\ trace s' = trace s.
Proof.
  intros E. unfold selectRoute. destruct (isRoute ch).
  - exists ch, s. auto.
  - rewrite E. cbn [selectRoute_range]. unfold bind, ret, Log.
    destruct Debug; eexists _, _; (split; [reflexivity | cbn; auto]).
Qed.

Lemma Conn_for_empty ch :
  nodeGroups ch = [] ->
  forall n conn err (s : State X),
  exists s',
    Conn_for (S n) ch conn err s = (Ret (None, Some ErrEmptyChain), s')
    /\ ext s' = ext s /\ trace s' = trace s.
Proof.
  intros E. induction n as [|n IH]; intros conn err s.
  - rewrite Conn_for_S.
    destruct (selectRoute_no_groups ch s E) as (r & s1 & -> & Er & Hx & Ht).
    rewrite getConn_empty by (cbn; rewrite Er; reflexivity).
    exists s1. cbn. auto.
  - rewrite Conn_for_S.
    destruct (selectRoute_no_groups ch s E) as (r & s1 & -> & Er & Hx & Ht).
    rewrite getConn_empty by (cbn; rewrite Er; reflexivity).
    destruct (IH None (Some ErrEmptyChain) s1) as (s' & -> & Hx' & Ht').
    exists s'. split; [reflexivity|]. split; congruence.
Qed.

(** The empty chain, for retry counts that [Retries + 1] can hold.  On an empty
    chain [getConn] returns no connection and [ErrEmptyChain] and
    touches nothing.  [Conn] on a chain without groups, with
    [0 <= Retries < max_int], returns no connection and [ErrEmptyChain],
    having made no call to any collaborator. *)
Theorem empty_chain_ErrEmptyChain c ch (s : State X) :
  IsEmpty c = true ->
  nodeGroups ch = [] ->
  0 <= Retries ch < GoInt.max_int ->
  getConn c s = (Ret (None, Some ErrEmptyChain), s)
  /\ exists s',
      Conn (Some ch) s = (Ret (None, Some ErrEmptyChain), s')
      /\ ext s' = ext s /\ trace s' = trace s.
Proof.
  intros Ec Eg Hr. split.
  - apply getConn_empty, Ec.
  - unfold Conn. rewrite iterations_budget by assumption.
    apply Conn_for_empty, Eg.
Qed.

End Empty.

Lemma selectRoute_route_unchanged_witness :
  let c := newRoute [Sim.hopB; Sim.hopC] in
  isRoute c = true /\
  selectRoute c (Sim.init 0) = (Ret (Some c, None), Sim.init 0) /\
  bind (selectRoute c)
       (fun r => match fst r with
                 | Some c' => selectRoute c'
                 | None => ret r
                 end) (Sim.init 0)
  = (Ret (Some c, None), Sim.init 0).
Proof.
  cbv zeta. split; [reflexivity|].
  apply (selectRoute_route_unchanged
           (newRoute [Sim.hopB; Sim.hopC]) (Sim.init 0)).
  reflexivity.
Defined.

Lemma Dial_empty_direct_witness :
  IsEmpty None = true /\
  Dial None "dst:80" (Sim.init 0)
  = (Ret (Some 1%nat, None),
     {| ext := {| Sim.budget := 0; Sim.fresh := 2%nat;
                  Sim.dead := []; Sim.closed := [] |};
        trace := [ENetDialTimeout "tcp" "dst:80" 30];
        logged := [] |}).
Proof.
  split; [reflexivity|].
  exact (Dial_empty_direct None "dst:80" (Sim.init 0) eq_refl).
Defined.

(** C8 at the largest retry count.  With [Retries] at the largest [int]
    the bound [Retries + 1] wraps around and the loop of [Conn] does not
    run: [Conn] on an empty chain returns a nil error, not
    [ErrEmptyChain], against what is written above it ("If the chain is
    empty, it returns an ErrEmptyChain error"). *)
Lemma Conn_empty_budget_wraps :
  let ch := Build_Chain false GoInt.max_int [] in
  IsEmpty (Some ch) = true /\ 0 <= Retries ch /\
  Conn (Some ch) (Sim.init 0) = (Ret (None, None), Sim.init 0) /\
  fst (Conn (Some ch) (Sim.init 0)) <> Ret (None, Some ErrEmptyChain).
Proof.
  cbv zeta. split; [reflexivity|]. split; [vm_compute; discriminate|].
  split; [vm_compute; reflexivity | vm_compute; discriminate].
Qed.

Lemma empty_chain_ErrEmptyChain_witness :
  let ch := Build_Chain false 2 [] in
  IsEmpty None = true /\ nodeGroups ch = [] /\
  0 <= Retries ch < GoInt.max_int /\
  getConn None (Sim.init 0) = (Ret (None, Some ErrEmptyChain), Sim.init 0) /\
  exists s',
    Conn (Some ch) (Sim.init 0) = (Ret (None, Some ErrEmptyChain), s')
    /\ ext s' = ext (Sim.init 0) /\ trace s' = trace (Sim.init 0).
Proof.
  cbv zeta. split; [reflexivity|]. split; [reflexivity|].
  split; [vm_compute; split; congruence|].
  apply (empty_chain_ErrEmptyChain None (Build_Chain false 2 []) (Sim.init 0)).
  - reflexivity.
  - reflexivity.
  - vm_compute; split; congruence.
Defined.

(** ** Building the connection *)

Lemma marked_app evs evs' : marked (evs ++ evs') = marked evs ++ marked evs'.
Proof.
  induction evs as [|e evs IH]; [reflexivity|].
  destruct e; cbn; rewrite IH; reflexivity.
Qed.

Lemma resets_app evs evs' : resets (evs ++ evs') = resets evs ++ resets evs'.
Proof.
  induction evs as [|e evs IH]; [reflexivity|].
  destruct e; cbn; rewrite IH; reflexivity.
Qed.

Lemma closes_app evs evs' : closes (evs ++ evs') = closes evs ++ closes evs'.
Proof.
  induction evs as [|e evs IH]; [reflexivity|].
  destruct e; cbn; rewrite IH; reflexivity.
Qed.

Lemma fold_append_groups ns : forall c,
  let c' := fold_left
              (fun acc node =>
                 Build_Chain (isRoute acc) (Retries acc)
                             (nodeGroups acc ++ [NewNodeGroup [node]]))
              ns c in
  isRoute c' = isRoute c /\ Retries c' = Retries c /\
  nodeGroups c' = nodeGroups c ++ map (fun node => NewNodeGroup [node]) ns.
Proof.
  induction ns as [|n ns IH]; intros c; cbn.
  - rewrite app_nil_r. auto.
  - destruct (IH (Build_Chain (isRoute c) (Retries c)
                              (nodeGroups c ++ [NewNodeGroup [n]])))
      as (Hr & Ht & Hg).
    cbn in *. rewrite Hr, Ht, Hg, <- List.app_assoc. auto.
Qed.

Lemma Nodes_of_singletons ns :
  Nodes_of_groups (map (fun node => NewNodeGroup [node]) ns) = ns.
Proof. induction ns as [|n ns IH]; cbn; [|rewrite IH]; reflexivity. Qed.

Lemma nodeGroups_newRoute ns :
  nodeGroups (newRoute ns) = map (fun node => NewNodeGroup [node]) ns.
Proof.
  unfold newRoute, NewChain. cbn [nodeGroups].
  destruct (fold_append_groups ns (Build_Chain false 0 [])) as (_ & _ & Hg).
  exact Hg.
Qed.

Lemma Nodes_newRoute ns : Nodes (newRoute ns) = ns.
Proof.
  unfold Nodes. rewrite nodeGroups_newRoute. apply Nodes_of_singletons.
Qed.

Lemma Nodes_nonempty ch n ns : Nodes ch = n :: ns -> nodeGroups ch <> [].
Proof. unfold Nodes. destruct (nodeGroups ch); cbn; congruence. Qed.

Section Building.

Context {X : Type} `{Collaborators X}.

(** [getConn] from the first node on. *)
Lemma getConn_Nodes ch node rest (s : State X) :
  Nodes ch = node :: rest ->
  getConn (Some ch) s
  = (cl <- the_Client node;;
     r <- do_Dial cl (Addr node) (DialOptions node);;
     match r with
     | Fail err => do_MarkDead node;; ret (None, Some err)
     | Ok cn =>
         r <- do_Handshake cl (Some cn) (HandshakeOptions node);;
         match r with
         | Fail err => do_MarkDead node;; ret (None, Some err)
         | Ok cn => do_ResetDead node;; getConn_range node cn rest
         end
     end) s.
Proof.
  intros E. unfold getConn.
  rewrite (IsEmpty_Some_false ch (Nodes_nonempty ch node rest E)), E.
  reflexivity.
Qed.

(** The loop over a list of nodes that is known to get through its first
    part goes on with the rest. *)
Lemma getConn_range_app pre rest :
  forall preNode cn (s s1 : State X) cn',
    getConn_range preNode cn pre s = (Ret (Some cn', None), s1) ->
    getConn_range preNode cn (pre ++ rest) s
    = getConn_range (last pre preNode) cn' rest s1.
Proof.
  induction pre as [|node pre IH]; intros preNode cn s s1 cn' E.
  - cbn in E. injection E as -> ->. reflexivity.
  - rewrite last_cons. cbn [app getConn_range] in *.
    revert E. unfold_calls.
    destruct (Client_of_node preNode); [|discriminate].
    destruct (Client_Connect _ _ _ _) as [[cc|e] x]; [|discriminate].
    destruct (Client_of_node node); [|discriminate].
    destruct (Client_Handshake _ _ _ _) as [[cc'|e] x']; [|discriminate].
    apply IH.
Qed.

(** What a run of the loop that gets through has done: it reset every
    node it went over, in order, marked none and closed nothing. *)
Lemma getConn_range_success rest :
  forall preNode cn (s s1 : State X) cn',
    getConn_range preNode cn rest s = (Ret (Some cn', None), s1) ->
    exists evs,
      emits s s1 evs /\ marked evs = [] /\ resets evs = rest
      /\ closes evs = [].
Proof.
  unfold emits.
  induction rest as [|node rest IH]; intros preNode cn s s1 cn' E.
  - cbn in E. injection E as -> ->. exists []. rewrite app_nil_r. auto.
  - cbn [getConn_range] in E. revert E. unfold_calls.
    destruct (Client_of_node preNode) as [pcl|]; [|discriminate].
    destruct (Client_Connect _ _ _ _) as [[cc|e] x]; [|discriminate].
    destruct (Client_of_node node) as [cl|]; [|discriminate].
    destruct (Client_Handshake _ _ _ _) as [[cc'|e] x']; [|discriminate].
    intros E. apply IH in E. destruct E as (evs & Ht & Hm & Hr & Hc).
    exists ([EConnect pcl (Some cn) (Addr node);
             EHandshake cl (Some cc) (HandshakeOptions node);
             EResetDead node] ++ evs).
    unfold emits, record in Ht. cbn in Ht.
    rewrite Ht. repeat rewrite <- List.app_assoc.
    cbn. rewrite Hm, Hr, Hc. auto.
Qed.

Lemma getConn_success ch (s s1 : State X) cn :
  getConn (Some ch) s = (Ret (Some cn, None), s1) ->
  exists evs,
    emits s s1 evs /\ marked evs = [] /\ resets evs = Nodes ch
    /\ closes evs = [].
Proof.
  unfold emits. intros E.
  destruct (Nodes ch) as [|node rest] eqn:En.
  - unfold getConn in E. rewrite En in E.
    destruct (IsEmpty (Some ch)); discriminate.
  - rewrite (getConn_Nodes ch node rest s En) in E. revert E. unfold_calls.
    destruct (Client_of_node node) as [cl|]; [|discriminate].
    destruct (Client_Dial _ _ _ _) as [[c0|e] x]; [|discriminate].
    destruct (Client_Handshake _ _ _ _) as [[c1|e] x']; [|discriminate].
    intros E. apply getConn_range_success in E.
    destruct E as (evs & Ht & Hm & Hr & Hc).
    exists ([EDial cl (Addr node) (DialOptions node);
             EHandshake cl (Some c0) (HandshakeOptions node);
             EResetDead node] ++ evs).
    unfold emits, record in Ht. cbn in Ht.
    rewrite Ht. repeat rewrite <- List.app_assoc.
    cbn. rewrite Hm, Hr, Hc. auto.
Qed.

(** [getConn] on a chain whose first nodes make a route that can be
    built goes on, from there, with the remaining nodes. *)
Lemma getConn_prefix ch pre rest (s s1 : State X) cn :
  Nodes ch = pre ++ rest ->
  getConn (Some (newRoute pre)) s = (Ret (Some cn, None), s1) ->
  getConn (Some ch) s = getConn_range (last pre zero_Node) cn rest s1.
Proof.
  intros En E. destruct pre as [|node pre].
  - cbn in E. discriminate.
  - rewrite (getConn_Nodes (newRoute (node :: pre)) node pre s
               (Nodes_newRoute _)) in E.
    cbn [app] in En. rewrite (getConn_Nodes ch node (pre ++ rest) s En).
    rewrite last_cons.
    revert E. unfold_calls.
    destruct (Client_of_node node) as [cl|]; [|discriminate].
    destruct (Client_Dial _ _ _ _) as [[c0|e] x]; [|discriminate].
    destruct (Client_Handshake _ _ _ _) as [[c1|e] x']; [|discriminate].
    apply getConn_range_app.
Qed.

Lemma getConn_range_fails pcl cn node rest e x' evs preNode (s : State X) :
  Client_of_node preNode = Some pcl ->
  hop_fails pcl cn node (ext s) e x' evs ->
  getConn_range preNode cn (node :: rest) s
  = (Ret (None, Some e),
     {| ext := Node_MarkDead node (Conn_Close cn x');
        trace := trace s ++ evs ++ [EClose cn; EMarkDead node];
        logged := logged s |}).
Proof.
  intros Ep Hf. cbn [getConn_range]. unfold_calls. rewrite Ep. unfold record.
  destruct Hf as [e x' Ec | cc x1 cl e x' Ec Ecl Eh].
  - rewrite Ec. cbn. repeat rewrite <- List.app_assoc. reflexivity.
  - rewrite Ec. cbn. rewrite Ecl. cbn. rewrite Eh. cbn.
    repeat rewrite <- List.app_assoc. reflexivity.
Qed.

(** C3.  Let the nodes of the chain be [pre ++ hi :: post], where the
    route [pre] can be built (so [pre] is not empty and [hi] has an index
    [i > 0]), giving the connection [cn], and where connecting through to
    [hi], or the handshake with it, fails then with [e].  [getConn]
    returns [e] and no connection right after closing [cn] and marking
    [hi] dead.  Over the whole run the only node marked dead is [hi], the
    nodes reset are those of [pre], each once, and [cn] is the one
    connection closed.  The nodes [post] play no part: the run is that of
    the route cut after [hi]. *)
Theorem getConn_fails_at_hop ch pre hi post (s s1 : State X)
        cn pcl e x' evs :
  Nodes ch = pre ++ hi :: post ->
  getConn (Some (newRoute pre)) s = (Ret (Some cn, None), s1) ->
  Client_of_node (last pre zero_Node) = Some pcl ->
  hop_fails pcl cn hi (ext s1) e x' evs ->
  exists evs0,
    (0 < List.length pre)%nat /\
    emits s s1 evs0 /\
    getConn (Some ch) s
    = (Ret (None, Some e),
       {| ext := Node_MarkDead hi (Conn_Close cn x');
          trace := trace s ++ evs0 ++ evs ++ [EClose cn; EMarkDead hi];
          logged := logged s1 |}) /\
    marked (evs0 ++ evs ++ [EClose cn; EMarkDead hi]) = [hi] /\
    resets (evs0 ++ evs ++ [EClose cn; EMarkDead hi]) = pre /\
    closes (evs0 ++ evs ++ [EClose cn; EMarkDead hi]) = [cn] /\
    getConn (Some ch) s = getConn (Some (newRoute (pre ++ [hi]))) s.
Proof.
  intros En Epre Ep Hf.
  destruct (getConn_success _ _ _ _ Epre) as (evs0 & Ht & Hm & Hr & Hc).
  rewrite Nodes_newRoute in Hr.
  exists evs0. split.
  { destruct pre; [cbn in Epre; discriminate | cbn; lia]. }
  split; [exact Ht|].
  assert (G : forall rest,
             getConn_range (last pre zero_Node) cn (hi :: rest) s1
             = (Ret (None, Some e),
                {| ext := Node_MarkDead hi (Conn_Close cn x');
                   trace := trace s ++ evs0 ++ evs ++ [EClose cn; EMarkDead hi];
                   logged := logged s1 |})).
  { intros rest. rewrite (getConn_range_fails _ _ _ rest _ _ _ _ _ Ep Hf).
    unfold emits in Ht. rewrite Ht. rewrite <- List.app_assoc. reflexivity. }
  split; [|split; [|split; [|split]]].
  - rewrite (getConn_prefix ch pre (hi :: post) s s1 cn En Epre). apply G.
  - rewrite !marked_app, Hm. destruct Hf; reflexivity.
  - rewrite !resets_app, Hr. destruct Hf; cbn; apply app_nil_r.
  - rewrite !closes_app, Hc. destruct Hf; reflexivity.
  - rewrite (getConn_prefix ch pre (hi :: post) s s1 cn En Epre).
    rewrite (getConn_prefix (newRoute (pre ++ [hi])) pre [hi] s s1 cn
               (Nodes_newRoute _) Epre).
    rewrite !G. reflexivity.
Qed.

(** The first node is another matter: when its handshake fails, the
    connection that was just dialed is dropped without being closed. *)
Lemma getConn_first_handshake_fails ch node rest cl cn x1 e x2 (s : State X) :
  Nodes ch = node :: rest ->
  Client_of_node node = Some cl ->
  Client_Dial cl (Addr node) (DialOptions node) (ext s) = (Ok cn, x1) ->
  Client_Handshake cl (Some cn) (HandshakeOptions node) x1 = (Fail e, x2) ->
  getConn (Some ch) s
  = (Ret (None, Some e),
     {| ext := Node_MarkDead node x2;
        trace := trace s ++ [EDial cl (Addr node) (DialOptions node);
                             EHandshake cl (Some cn) (HandshakeOptions node);
                             EMarkDead node];
        logged := logged s |}).
Proof.
  intros En Ecl Ed Eh. rewrite (getConn_Nodes ch node rest s En).
  unfold_calls. rewrite Ecl, Ed. cbn. rewrite Eh. unfold record. cbn.
  repeat rewrite <- List.app_assoc. reflexivity.
Qed.

End Building.

Lemma getConn_fails_at_hop_witness :
  let ch := newRoute [Sim.hopB; Sim.hopC; Sim.hopRude; Sim.hopD] in
  let pre := [Sim.hopB; Sim.hopC] in
  let s1 := snd (getConn (Some (newRoute pre)) (Sim.init 0)) in
  let e := ErrOther "handshake rejected" in
  let evs := [EConnect Sim.tcp (Some 2%nat) "r:8080";
              EHandshake Sim.tcp (Some 3%nat) [HandshakeOpt "reject"]] in
  Nodes ch = pre ++ Sim.hopRude :: [Sim.hopD] /\
  getConn (Some (newRoute pre)) (Sim.init 0) = (Ret (Some 2%nat, None), s1) /\
  Client_of_node (last pre zero_Node) = Some Sim.tcp /\
  hop_fails Sim.tcp 2%nat Sim.hopRude (ext s1) e
            (snd (Sim.open_conn (ext s1))) evs /\
  exists evs0,
    (0 < List.length pre)%nat /\
    emits (Sim.init 0) s1 evs0 /\
    getConn (Some ch) (Sim.init 0)
    = (Ret (None, Some e),
       {| ext := Node_MarkDead Sim.hopRude
                   (Conn_Close 2%nat (snd (Sim.open_conn (ext s1))));
          trace := trace (Sim.init 0) ++ evs0 ++ evs
                   ++ [EClose 2%nat; EMarkDead Sim.hopRude];
          logged := logged s1 |}) /\
    marked (evs0 ++ evs ++ [EClose 2%nat; EMarkDead Sim.hopRude])
    = [Sim.hopRude] /\
    resets (evs0 ++ evs ++ [EClose 2%nat; EMarkDead Sim.hopRude]) = pre /\
    closes (evs0 ++ evs ++ [EClose 2%nat; EMarkDead Sim.hopRude]) = [2%nat] /\
    getConn (Some ch) (Sim.init 0)
    = getConn (Some (newRoute (pre ++ [Sim.hopRude]))) (Sim.init 0).
Proof.
  cbv zeta.
  assert (Hf : hop_fails Sim.tcp 2%nat Sim.hopRude
                 (ext (snd (getConn (Some (newRoute [Sim.hopB; Sim.hopC]))
                                    (Sim.init 0))))
                 (ErrOther "handshake rejected")
                 (snd (Sim.open_conn
                         (ext (snd (getConn
                                      (Some (newRoute [Sim.hopB; Sim.hopC]))
                                      (Sim.init 0))))))
                 [EConnect Sim.tcp (Some 2%nat) "r:8080";
                  EHandshake Sim.tcp (Some 3%nat) [HandshakeOpt "reject"]]).
  { eapply handshake_fails with (cc := 3%nat) (cl := Sim.tcp); reflexivity. }
  split; [reflexivity|]. split; [reflexivity|]. split; [reflexivity|].
  split; [exact Hf|].
  apply (getConn_fails_at_hop
           (newRoute [Sim.hopB; Sim.hopC; Sim.hopRude; Sim.hopD])
           [Sim.hopB; Sim.hopC] Sim.hopRude [Sim.hopD] (Sim.init 0)
           (snd (getConn (Some (newRoute [Sim.hopB; Sim.hopC])) (Sim.init 0)))
           2%nat Sim.tcp (ErrOther "handshake rejected")).
  - reflexivity.
  - reflexivity.
  - reflexivity.
  - exact Hf.
Defined.

(** C2 at the first node: the route is [hopRude], whose handshake is
    refused.  The dial opened connection [1]; [getConn] returns the
    handshake error after marking the node dead, and connection [1] was
    never closed. *)
Lemma first_hop_handshake_leaves_conn_open :
  let r := getConn (Some (newRoute [Sim.hopRude])) (Sim.init 0) in
  fst r = Ret (None, Some (ErrOther "handshake rejected")) /\
  trace (snd r) = [EDial Sim.tcp "r:8080" [];
                   EHandshake Sim.tcp (Some 1%nat) [HandshakeOpt "reject"];
                   EMarkDead Sim.hopRude] /\
  closes (trace (snd r)) = [] /\
  Sim.closed (ext (snd r)) = [] /\
  Sim.fresh (ext (snd r)) = 2%nat.
Proof.
  cbv zeta.
  rewrite (getConn_first_handshake_fails
             (newRoute [Sim.hopRude]) Sim.hopRude [] Sim.tcp 1%nat
             (snd (Sim.open_conn (ext (Sim.init 0))))
             (ErrOther "handshake rejected")
             (snd (Sim.open_conn (ext (Sim.init 0)))) (Sim.init 0));
    try reflexivity.
  repeat split.
Qed.

(** ** Route selection *)

Lemma built_route_ok r : built_route r -> route_ok r.
Proof.
  unfold route_ok, singleton_groups.
  induction 1 as [ns | r n _ IH | r ns r' _ IH E].
  - split; [reflexivity|]. rewrite nodeGroups_newRoute.
    apply Forall_forall. intros g Hg. apply in_map_iff in Hg.
    destruct Hg as (n & <- & _). reflexivity.
  - exact IH.
  - cbn in E. injection E as <-.
    destruct (fold_append_groups ns r) as (Hr & _ & Hg).
    cbv zeta in Hr, Hg. rewrite Hr, Hg. destruct IH as [IH1 IH2].
    split; [exact IH1|]. apply Forall_app. split; [exact IH2|].
    apply Forall_forall. intros g Hin. apply in_map_iff in Hin.
    destruct Hin as (n & <- & _). reflexivity.
Qed.

Lemma AddNode_one r node :
  AddNode (Some r) [node]
  = Some (Build_Chain (isRoute r) (Retries r)
                      (nodeGroups r ++ [NewNodeGroup [node]])).
Proof. reflexivity. Qed.

Lemma Nodes_of_groups_app gs gs' :
  Nodes_of_groups (gs ++ gs') = Nodes_of_groups gs ++ Nodes_of_groups gs'.
Proof.
  induction gs as [|g gs IH]; [reflexivity|].
  cbn. destruct (NodeGroup_Nodes g); cbn; rewrite IH; reflexivity.
Qed.

Section Selection.

Context {X : Type} `{Collaborators X}.

(** The loop of [selectRoute] keeps its accumulator a built route whose
    hops are selected nodes, placed. *)
Lemma selectRoute_range_built retries groups :
  forall r0 buf (s : State X) res err s',
    built_route r0 -> hops_placed r0 ->
    selectRoute_range retries groups (Some r0) buf s = (Ret (res, err), s') ->
    match res with
    | Some r => err = None /\ built_route r /\ hops_placed r
    | None => err <> None
    end.
Proof.
  induction groups as [|group rest IH]; intros r0 buf s res err s' Hb Hp E.
  - cbn [selectRoute_range] in E. unfold bind, ret, Log in E.
    destruct Debug; injection E as <- <- _; auto.
  - cbn [selectRoute_range] in E. revert E. unfold_calls.
    destruct (group_Next group (ext s)) as [[node|e] x] eqn:En.
    2:{ intros E. injection E as <- <- _. discriminate. }
    destruct (Client_of_node node) as [cl|]; [|discriminate].
    assert (Hsel : selectable node) by (exists group, (ext s), x; exact En).
    destruct (Multiplex (Transporter_of cl)).
    + rewrite AddNode_one. apply IH.
      * apply built_AddNode
          with (r := set_Retries (newRoute []) retries)
               (ns := [append_DialOption node (ChainDialOption (Some r0))]).
        -- apply built_set_Retries, built_newRoute.
        -- reflexivity.
      * unfold hops_placed, Nodes. cbn. constructor; [|constructor].
        exists node. split; [exact Hsel|]. right. exists r0. auto.
    + rewrite AddNode_one. apply IH.
      * apply built_AddNode with (r := r0) (ns := [node]);
          [exact Hb | reflexivity].
      * unfold hops_placed, Nodes in *. cbn [nodeGroups].
        rewrite Nodes_of_groups_app. apply Forall_app. split; [exact Hp|].
        cbn. constructor; [|constructor].
        exists node. split; [exact Hsel|]. left. reflexivity.
Qed.

(** C9.  Routes built by [newRoute], [Retries] assignments and [AddNode]
    are marked as routes and have singleton groups only.  [selectRoute],
    given a chain that respects the invariant, returns such a route: the
    chain itself when it is a route already, and otherwise a route built
    in this way, every hop of which is a selected node, placed as it is
    or with a built route sealed into its dial options. *)
Theorem routes_keep_singleton_groups ch (s : State X) res err s' :
  route_inv ch ->
  selectRoute ch s = (Ret (res, err), s') ->
  (forall r, built_route r -> route_ok r) /\
  match res with
  | Some r =>
      err = None /\ route_ok r
      /\ (isRoute ch = true -> r = ch /\ s' = s)
      /\ (isRoute ch = false -> built_route r /\ hops_placed r)
  | None => err <> None
  end.
Proof.
  intros Hinv E. split; [exact built_route_ok|].
  unfold selectRoute in E. destruct (isRoute ch) eqn:Er.
  - injection E as <- <- <-. repeat split; auto; discriminate.
  - apply selectRoute_range_built in E.
    + destruct res as [r|]; [|exact E]. destruct E as (-> & Hb & Hp).
      repeat split; auto; try discriminate; apply built_route_ok, Hb.
    + apply built_set_Retries, built_newRoute.
    + constructor.
Qed.

(** C1, as the code has it.  With groups [G0; G1], where [G0] selects a
    multiplexing [hopA] and [G1] a plain [hopB], the resolved route holds
    both hops, [hopA] first.  The cutover happens in front of the
    multiplexing hop: the route accumulated before it (here the empty
    route) is sealed into [hopA]'s own dial options, and [hopA] starts the
    new route; [hopB] follows unchanged. *)
Theorem selectRoute_multiplex_then_plain
        ch G0 G1 hopA hopB clA clB x1 x2 (s : State X) :
  isRoute ch = false ->
  nodeGroups ch = [G0; G1] ->
  group_Next G0 (ext s) = (Ok hopA, x1) ->
  group_Next G1 x1 = (Ok hopB, x2) ->
  Client_of_node hopA = Some clA ->
  Multiplex (Transporter_of clA) = true ->
  Client_of_node hopB = Some clB ->
  Multiplex (Transporter_of clB) = false ->
  let sealed := Build_Chain true (Retries ch) [] in
  let hopA' := append_DialOption hopA (ChainDialOption (Some sealed)) in
  let route :=
    Build_Chain true (Retries ch) [NewNodeGroup [hopA']; NewNodeGroup [hopB]] in
  exists s',
    selectRoute ch s = (Ret (Some route, None), s')
    /\ Nodes route = [hopA'; hopB]
    /\ DialOptions hopA' = DialOptions hopA ++ [ChainDialOption (Some sealed)]
    /\ ext s' = x2
    /\ trace s' = trace s ++ [ENext G0; ENext G1].
Proof.
  intros Er Eg E0 E1 EA MA EB MB sealed hopA' route.
  unfold selectRoute. rewrite Er, Eg. cbn [selectRoute_range].
  unfold_calls. rewrite E0. cbn. rewrite EA, MA. cbn. rewrite E1. cbn.
  rewrite EB, MB. cbn. unfold Log.
  assert (Ed : DialOptions hopA'
               = DialOptions hopA ++ [ChainDialOption (Some sealed)])
    by (destruct hopA; reflexivity).
  destruct Debug; eexists; (split; [reflexivity|]); cbn;
    repeat split; auto; rewrite <- List.app_assoc; reflexivity.
Qed.

End Selection.

(** The chain [{hopA, multiplexing}; {hopB}]: the resolved route is not
    [hopB] alone with [hopA] behind a dial option.  It has two hops, and
    [hopB] has no dial option at all. *)
Lemma multiplex_cutover_keeps_both_hops :
  exists r,
    fst (selectRoute Sim.chainAB (Sim.init 0)) = Ret (Some r, None)
    /\ List.length (Nodes r) = 2%nat
    /\ nth 1 (Nodes r) zero_Node = Sim.hopB
    /\ DialOptions Sim.hopB = []
    /\ ~ (exists hopB' sealed,
            Nodes r = [hopB']
            /\ In (ChainDialOption (Some sealed)) (DialOptions hopB')).
Proof.
  eexists. split; [vm_compute; reflexivity|].
  split; [reflexivity|]. split; [reflexivity|]. split; [reflexivity|].
  intros (hopB' & sealed & E & _). discriminate E.
Qed.

Lemma selectRoute_multiplex_then_plain_witness :
  let sealed := Build_Chain true 0 [] in
  let hopA' := append_DialOption Sim.hopA (ChainDialOption (Some sealed)) in
  let route :=
    Build_Chain true 0 [NewNodeGroup [hopA']; NewNodeGroup [Sim.hopB]] in
  isRoute Sim.chainAB = false /\
  nodeGroups Sim.chainAB = [Sim.G0; Sim.G1] /\
  group_Next Sim.G0 (ext (Sim.init 0)) = (Ok Sim.hopA, ext (Sim.init 0)) /\
  group_Next Sim.G1 (ext (Sim.init 0)) = (Ok Sim.hopB, ext (Sim.init 0)) /\
  Client_of_node Sim.hopA = Some Sim.h2 /\
  Multiplex (Transporter_of Sim.h2) = true /\
  Client_of_node Sim.hopB = Some Sim.tcp /\
  Multiplex (Transporter_of Sim.tcp) = false /\
  exists s',
    selectRoute Sim.chainAB (Sim.init 0) = (Ret (Some route, None), s')
    /\ Nodes route = [hopA'; Sim.hopB]
    /\ DialOptions hopA'
        = DialOptions Sim.hopA ++ [ChainDialOption (Some sealed)]
    /\ ext s' = ext (Sim.init 0)
    /\ trace s' = trace (Sim.init 0) ++ [ENext Sim.G0; ENext Sim.G1].
Proof.
  cbv zeta. repeat (split; [reflexivity|]).
  exact (selectRoute_multiplex_then_plain
           Sim.chainAB Sim.G0 Sim.G1 Sim.hopA Sim.hopB Sim.h2 Sim.tcp
           (ext (Sim.init 0)) (ext (Sim.init 0)) (Sim.init 0)
           eq_refl eq_refl eq_refl eq_refl eq_refl eq_refl eq_refl eq_refl).
Defined.

Lemma routes_keep_singleton_groups_witness :
  let res := fst (selectRoute Sim.chainAB (Sim.init 0)) in
  route_inv Sim.chainAB /\
  (forall r, built_route r -> route_ok r) /\
  exists r,
    res = Ret (Some r, None) /\ route_ok r
    /\ built_route r /\ hops_placed r.
Proof.
  cbv zeta. split; [discriminate|].
  destruct (selectRoute Sim.chainAB (Sim.init 0)) as [[[[r|] err]|] s'] eqn:E;
    try (vm_compute in E; discriminate E).
  destruct (routes_keep_singleton_groups
              Sim.chainAB (Sim.init 0) (Some r) err s')
    as (Hall & -> & Hok & _ & Hb).
  - discriminate.
  - exact E.
  - split; [exact Hall|]. exists r.
    destruct (Hb eq_refl) as [Hb1 Hb2]. auto.
Defined.

(** ** Every attempt resolves the route again *)

Section Reresolution.

Context {X : Type} `{Collaborators X}.

Lemma grows_ret {A} (a : A) : grows (X := X) (ret a).
Proof. intros s. exists []. cbn. rewrite app_nil_r. reflexivity. Qed.

Lemma grows_panic {A} : grows (X := X) (@panic X A).
Proof. intros s. exists []. cbn. rewrite app_nil_r. reflexivity. Qed.

Lemma grows_bind {A B} (m : M X A) (k : A -> M X B) :
  grows m -> (forall a, grows (k a)) -> grows (bind m k).
Proof.
  intros Hm Hk s. unfold bind. destruct (Hm s) as (evs & E).
  destruct (m s) as [[a|] s1]; cbn in E.
  - destruct (Hk a s1) as (evs' & E'). exists (evs ++ evs').
    rewrite E', E, List.app_assoc. reflexivity.
  - exists evs. exact E.
Qed.

Lemma grows_call {A} e (f : X -> A * X) : grows (X := X) (call e f).
Proof.
  intros s. unfold call. destruct (f (ext s)) as [a x]. exists [e].
  reflexivity.
Qed.

Lemma grows_act e (f : X -> X) : grows (X := X) (act e f).
Proof. intros s. exists [e]. reflexivity. Qed.

Lemma grows_Log args : grows (X := X) (Log args).
Proof. intros s. exists []. cbn. rewrite app_nil_r. reflexivity. Qed.

Lemma grows_the_Client node : grows (X := X) (the_Client node).
Proof.
  unfold the_Client. destruct (Client_of_node node);
    [apply grows_ret | apply grows_panic].
Qed.

Lemma grows_Close cn : grows (X := X) (do_Close cn).
Proof. destruct cn; [apply grows_act | apply grows_panic]. Qed.

Lemma grows_lift {A} (o : outcome A) : grows (X := X) (lift o).
Proof. intros s. exists []. cbn. rewrite app_nil_r. reflexivity. Qed.

Create HintDb grows.

#[local] Hint Resolve grows_ret grows_panic grows_call grows_act grows_Log
  grows_the_Client grows_Close grows_lift : grows.

Ltac grows_step :=
  repeat first
    [ apply grows_bind; [|intros ?]
    | progress auto with grows
    | match goal with
      | |- grows (match ?t with _ => _ end) => destruct t
      | |- grows (if ?t then _ else _) => destruct t
      | |- grows (let '(_, _) := ?t in _) => destruct t
      end ].

Lemma grows_selectRoute_range retries groups :
  forall route buf, grows (selectRoute_range retries groups route buf).
Proof.
  induction groups as [|group rest IH]; intros route buf;
    cbn [selectRoute_range].
  - grows_step.
  - unfold do_Next. grows_step; apply IH.
Qed.

Lemma grows_selectRoute c : grows (X := X) (selectRoute c).
Proof.
  unfold selectRoute. destruct (isRoute c);
    [apply grows_ret | apply grows_selectRoute_range].
Qed.







Lemma attempts_all (attempt : M X (net_Conn * error))
      (P : State X -> outcome (net_Conn * error) * State X -> Prop) :
  (forall s, P s (attempt s)) ->
  forall n s, Forall2 P (starts s (attempts attempt n s)) (attempts attempt n s).
Proof.
  intros HP. induction n as [|n IH]; intros s; cbn [attempts starts].
  - constructor.
  - constructor; [apply HP|].
    destruct (fst (attempt s)) as [a|]; [|constructor].
    destruct (failed a); [apply IH | constructor].
Qed.


End Reresolution.


(** The group [{hopB, hopC, hopD}] with two dials bound to fail and two
    retries: the first attempt selects [hopB], which is marked dead; the
    second, resolving again, selects [hopC], marked dead in turn; the third
    selects [hopD] and gets through. *)
Lemma retries_select_the_next_node :
  let r := Conn (Some Sim.chain3) (Sim.init 2) in
  fst r = Ret (Some 1%nat, None) /\
  trace (snd r)
  = [ENext Sim.G3; EDial Sim.tcp "b:8080" []; EMarkDead Sim.hopB;
     ENext Sim.G3; EDial Sim.tcp "c:8080" []; EMarkDead Sim.hopC;
     ENext Sim.G3; EDial Sim.tcp "d:8080" [];
     EHandshake Sim.tcp (Some 1%nat) []; EResetDead Sim.hopD].
Proof. cbv zeta. split; vm_compute; reflexivity. Qed.

(** A route whose third node cannot be reached: connecting through the
    second node's connection fails, that connection ([2]) is closed, the
    third node is marked dead, the fourth is never contacted. *)
Lemma connect_through_failure_example :
  let r := getConn (Some (newRoute [Sim.hopB; Sim.hopC; Sim.hopFar; Sim.hopD]))
                   (Sim.init 0) in
  fst r = Ret (None, Some (ErrOther "connect failed")) /\
  trace (snd r)
  = [EDial Sim.tcp "b:8080" []; EHandshake Sim.tcp (Some 1%nat) [];
     EResetDead Sim.hopB;
     EConnect Sim.tcp (Some 1%nat) "c:8080";
     EHandshake Sim.tcp (Some 2%nat) []; EResetDead Sim.hopC;
     EConnect Sim.tcp (Some 2%nat) "unreachable";
     EClose 2%nat; EMarkDead Sim.hopFar] /\
  Sim.closed (ext (snd r)) = [2%nat] /\
  Sim.dead (ext (snd r)) = [5].
Proof. cbv zeta. repeat split; vm_compute; reflexivity. Qed.

(** * Further properties of the chain *)

(** ** Building chains *)

Lemma last_map_nonempty {A B} (f : A -> B) (l : list A) d d' :
  l <> [] -> last (map f l) d' = f (last l d).
Proof.
  induction l as [|a l IH]; [congruence|]. intros _.
  destruct l as [|b l]; [reflexivity|].
  change (last (map f (a :: b :: l)) d') with (last (map f (b :: l)) d').
  change (last (a :: b :: l) d) with (last (b :: l) d).
  apply IH. discriminate.
Qed.

Lemma last_default {A} (l : list A) d d' : l <> [] -> last l d = last l d'.
Proof.
  destruct l as [|a l]; [congruence|]. intros _. rewrite !last_cons.
  reflexivity.
Qed.

Lemma last_app_nonempty {A} (l l' : list A) d d' :
  l' <> [] -> last (l ++ l') d = last l' d'.
Proof.
  intros Hne. induction l as [|a l IH]; [apply last_default, Hne|].
  cbn [app]. rewrite last_cons. rewrite <- IH.
  apply last_default. destruct l, l'; cbn; congruence.
Qed.

Lemma last_In {A} (l : list A) d : l <> [] -> In (last l d) l.
Proof.
  induction l as [|a l IH]; [congruence|]. intros _.
  destruct l as [|b l]; [left; reflexivity|].
  right. apply IH. discriminate.
Qed.

Lemma Nodes_of_nonempty_groups gs :
  Forall (fun g => nodes g <> []) gs ->
  Nodes_of_groups gs = map (fun g => hd zero_Node (nodes g)) gs.
Proof.
  induction 1 as [|g gs Hg _ IH]; [reflexivity|].
  cbn. unfold NodeGroup_Nodes. rewrite IH.
  destruct (nodes g); [congruence | reflexivity].
Qed.

Lemma nodeGroups_NewChain ns :
  nodeGroups (NewChain ns) = map (fun node => NewNodeGroup [node]) ns.
Proof.
  unfold NewChain.
  destruct (fold_append_groups ns (Build_Chain false 0 [])) as (_ & _ & Hg).
  exact Hg.
Qed.

Lemma AddNode_Some ch ns :
  exists ch',
    AddNode (Some ch) ns = Some ch'
    /\ isRoute ch' = isRoute ch /\ Retries ch' = Retries ch
    /\ nodeGroups ch'
       = nodeGroups ch ++ map (fun node => NewNodeGroup [node]) ns.
Proof.
  eexists. split; [reflexivity|].
  exact (fold_append_groups ns ch).
Qed.

Lemma chain_ext c c' :
  isRoute c = isRoute c' -> Retries c = Retries c' ->
  nodeGroups c = nodeGroups c' -> c = c'.
Proof. destruct c, c'; cbn; congruence. Qed.

(** [LastNode] on a chain all of whose groups have a node. *)
Lemma LastNode_last ch :
  nodeGroups ch <> [] ->
  Forall (fun g => nodes g <> []) (nodeGroups ch) ->
  LastNode (Some ch) = Ret (last (Nodes ch) zero_Node).
Proof.
  intros Hne Hall. unfold LastNode. rewrite IsEmpty_Some_false by exact Hne.
  unfold Nodes. rewrite Nodes_of_nonempty_groups by exact Hall.
  destruct (nodeGroups ch) as [|g0 gs] eqn:Eg; [congruence|].
  rewrite (last_map_nonempty Some (g0 :: gs) g0 None) by discriminate.
  rewrite (last_map_nonempty (fun g => hd zero_Node (nodes g))
             (g0 :: gs) g0 zero_Node) by discriminate.
  assert (Hin : In (last (g0 :: gs) g0) (g0 :: gs))
    by (apply last_In; discriminate).
  rewrite Forall_forall in Hall. specialize (Hall _ Hin).
  destruct (nodes (last (g0 :: gs) g0)); [congruence | reflexivity].
Qed.

(** X1.  A chain made by [NewChain] is not a route, has no retries, holds
    one group per node, and gives the nodes back in order: [Nodes] is the
    list it was made of and [LastNode] its last element (the zero node
    when there is none). *)
Theorem NewChain_Nodes ns :
  Nodes (NewChain ns) = ns
  /\ isRoute (NewChain ns) = false
  /\ Retries (NewChain ns) = 0
  /\ List.length (nodeGroups (NewChain ns)) = List.length ns
  /\ IsEmpty (Some (NewChain ns)) = match ns with [] => true | _ => false end
  /\ LastNode (Some (NewChain ns)) = Ret (last ns zero_Node).
Proof.
  assert (EN : Nodes (NewChain ns) = ns).
  { unfold Nodes. rewrite nodeGroups_NewChain. apply Nodes_of_singletons. }
  destruct (fold_append_groups ns (Build_Chain false 0 [])) as (Hr & Ht & _).
  split; [exact EN|]. split; [exact Hr|]. split; [exact Ht|].
  split; [rewrite nodeGroups_NewChain; apply length_map|].
  split.
  - cbn. rewrite nodeGroups_NewChain. destruct ns; reflexivity.
  - destruct ns as [|n ns]; [reflexivity|].
    rewrite LastNode_last.
    + rewrite EN. reflexivity.
    + rewrite nodeGroups_NewChain. discriminate.
    + rewrite nodeGroups_NewChain. apply Forall_forall. intros g Hg.
      apply in_map_iff in Hg. destruct Hg as (m & <- & _). discriminate.
Qed.

(** X2.  [AddNode] on a chain appends one singleton group per node, in
    order, and changes nothing else: the nodes of the chain are the old
    ones followed by the new ones, the route mark and the retries stay.
    Adding in two steps is adding at once, and on a nil chain [AddNode]
    does nothing. *)
Theorem AddNode_appends ch a b :
  exists ch',
    AddNode (Some ch) a = Some ch'
    /\ nodeGroups ch'
       = nodeGroups ch ++ map (fun node => NewNodeGroup [node]) a
    /\ Nodes ch' = Nodes ch ++ a
    /\ isRoute ch' = isRoute ch /\ Retries ch' = Retries ch
    /\ AddNode (AddNode (Some ch) a) b = AddNode (Some ch) (a ++ b)
    /\ AddNode (Some (NewChain a)) b = Some (NewChain (a ++ b))
    /\ AddNode None a = None.
Proof.
  destruct (AddNode_Some ch a) as (ch' & E & Hr & Ht & Hg).
  exists ch'. split; [exact E|]. split; [exact Hg|]. split.
  { unfold Nodes. rewrite Hg, Nodes_of_groups_app, Nodes_of_singletons.
    reflexivity. }
  split; [exact Hr|]. split; [exact Ht|]. split.
  { cbn. rewrite fold_left_app. reflexivity. }
  split; [|reflexivity].
  cbn. unfold NewChain. rewrite fold_left_app. reflexivity.
Qed.

Lemma fold_add_groups groups : forall c,
  let c' := fold_left
              (fun acc group =>
                 Build_Chain (isRoute acc) (Retries acc)
                             (nodeGroups acc ++ [group]))
              groups c in
  isRoute c' = isRoute c /\ Retries c' = Retries c /\
  nodeGroups c' = nodeGroups c ++ groups.
Proof.
  induction groups as [|g groups IH]; intros c; cbn.
  - rewrite app_nil_r. auto.
  - destruct (IH (Build_Chain (isRoute c) (Retries c) (nodeGroups c ++ [g])))
      as (Hr & Ht & Hg).
    cbn in *. rewrite Hr, Ht, Hg, <- List.app_assoc. auto.
Qed.

(** X3.  [AddNodeGroup] appends the groups as they are, in order, and
    changes nothing else; the last group of the chain is then the last
    group added.  [AddNode] is [AddNodeGroup] on the singleton groups of
    its nodes, and on a nil chain [AddNodeGroup] does nothing. *)
Theorem AddNodeGroup_appends ch groups ns :
  exists ch',
    AddNodeGroup (Some ch) groups = Some ch'
    /\ NodeGroups ch' = NodeGroups ch ++ groups
    /\ isRoute ch' = isRoute ch /\ Retries ch' = Retries ch
    /\ LastNodeGroup (Some ch')
       = last (map Some groups) (LastNodeGroup (Some ch))
    /\ AddNode (Some ch) ns
       = AddNodeGroup (Some ch) (map (fun node => NewNodeGroup [node]) ns)
    /\ AddNodeGroup None groups = None.
Proof.
  eexists. split; [reflexivity|].
  destruct (fold_add_groups groups ch) as (Hr & Ht & Hg). cbv zeta in *.
  split; [exact Hg|]. split; [exact Hr|]. split; [exact Ht|]. split.
  - unfold LastNodeGroup, IsEmpty. rewrite Hg.
    destruct groups as [|g groups].
    + rewrite app_nil_r. reflexivity.
    + destruct (nodeGroups ch ++ g :: groups) eqn:E.
      { destruct (nodeGroups ch); discriminate. }
      rewrite <- E, map_app.
      apply last_app_nonempty. discriminate.
  - split; [|reflexivity].
    unfold AddNode, AddNodeGroup. f_equal. apply chain_ext.
    + destruct (fold_append_groups ns ch) as (-> & _ & _).
      destruct (fold_add_groups (map (fun node => NewNodeGroup [node]) ns) ch)
        as (-> & _ & _). reflexivity.
    + destruct (fold_append_groups ns ch) as (_ & -> & _).
      destruct (fold_add_groups (map (fun node => NewNodeGroup [node]) ns) ch)
        as (_ & -> & _). reflexivity.
    + destruct (fold_append_groups ns ch) as (_ & _ & ->).
      destruct (fold_add_groups (map (fun node => NewNodeGroup [node]) ns) ch)
        as (_ & _ & ->). reflexivity.
Qed.

Lemma Nodes_of_groups_filter gs :
  Nodes_of_groups gs
  = map (fun g => hd zero_Node (nodes g)) (filter has_nodes gs).
Proof.
  induction gs as [|g gs IH]; [reflexivity|].
  cbn [Nodes_of_groups filter]. unfold NodeGroup_Nodes.
  unfold has_nodes at 1.
  destruct (nodes g) as [|n l] eqn:E; rewrite IH; [reflexivity|].
  cbn [map]. rewrite E. reflexivity.
Qed.

(** X4.  [Nodes] is the list of the first nodes of the groups that have
    nodes, in chain order: groups without nodes are skipped, the other
    nodes of a group are not listed, so there are at most as many nodes
    as groups. *)
Theorem Nodes_first_of_each_group ch :
  Nodes ch
  = map (fun g => hd zero_Node (nodes g)) (filter has_nodes (nodeGroups ch))
  /\ (List.length (Nodes ch) <= List.length (nodeGroups ch))%nat
  /\ Forall (fun n => exists g,
                 In g (nodeGroups ch) /\ hd_error (nodes g) = Some n)
            (Nodes ch).
Proof.
  unfold Nodes. split; [apply Nodes_of_groups_filter|]. split.
  - rewrite Nodes_of_groups_filter, length_map. apply filter_length_le.
  - rewrite Nodes_of_groups_filter. apply Forall_forall. intros n Hn.
    apply in_map_iff in Hn. destruct Hn as (g & <- & Hg).
    apply filter_In in Hg. destruct Hg as [Hin Hhas].
    exists g. split; [exact Hin|].
    unfold has_nodes in Hhas. destruct (nodes g); [discriminate|reflexivity].
Qed.

(** X5.  On a chain that ends with the group [g], [LastNodeGroup] is [g]
    and [LastNode] is the first node of [g], whatever [g]'s selection
    would choose; when [g] has no node, [LastNode] panics on
    [group.nodes[0]]. *)
Theorem LastNode_of_last_group ch gs g :
  nodeGroups ch = gs ++ [g] ->
  LastNodeGroup (Some ch) = Some g
  /\ LastNode (Some ch)
     = match nodes g with
       | n0 :: _ => Ret n0
       | [] => Panic
       end.
Proof.
  intros E.
  assert (Hne : nodeGroups ch <> []) by (rewrite E; destruct gs; discriminate).
  assert (El : last (map Some (nodeGroups ch)) None = Some g).
  { rewrite E, map_app. cbn [map].
    rewrite (last_app_nonempty _ [Some g] None None) by discriminate.
    reflexivity. }
  unfold LastNodeGroup, LastNode. rewrite (IsEmpty_Some_false ch Hne), El.
  split; [reflexivity|]. destruct (nodes g); reflexivity.
Qed.

Lemma Nodes_of_singleton_groups gs :
  Forall (fun g => List.length (nodes g) = 1%nat) gs ->
  Nodes_of_groups gs = List.concat (map nodes gs).
Proof.
  induction 1 as [|g gs Hg _ IH]; [reflexivity|].
  cbn. unfold NodeGroup_Nodes. rewrite IH.
  destruct (nodes g) as [|n [|m l]]; try discriminate. reflexivity.
Qed.

Lemma singleton_groups_nonempty ch :
  singleton_groups ch -> Forall (fun g => nodes g <> []) (nodeGroups ch).
Proof.
  unfold singleton_groups. apply Forall_impl.
  intros g Hg Hn. rewrite Hn in Hg. discriminate Hg.
Qed.

(** X6.  On a chain with singleton groups only, as every resolved route
    is, listing and dialing agree: [Nodes] lists all the nodes of all the
    groups, and [LastNode], the node [dial] connects through to the
    target, is the last node of [Nodes], the one [getConn] reaches last. *)
Theorem singleton_groups_LastNode ch :
  singleton_groups ch ->
  Nodes ch = List.concat (map nodes (nodeGroups ch))
  /\ List.length (Nodes ch) = List.length (nodeGroups ch)
  /\ LastNode (Some ch) = Ret (last (Nodes ch) zero_Node).
Proof.
  intros Hs. pose proof (singleton_groups_nonempty ch Hs) as Hne.
  split; [apply Nodes_of_singleton_groups, Hs|]. split.
  - unfold Nodes. rewrite Nodes_of_nonempty_groups by exact Hne.
    apply length_map.
  - destruct (nodeGroups ch) as [|g gs] eqn:E.
    + unfold LastNode, Nodes. cbn. rewrite E. reflexivity.
    + apply LastNode_last; rewrite E; [discriminate | exact Hne].
Qed.

Lemma LastNode_of_last_group_witness :
  let ch := Build_Chain false 0 [Sim.G0; Sim.G3] in
  nodeGroups ch = [Sim.G0] ++ [Sim.G3] /\
  LastNodeGroup (Some ch) = Some Sim.G3 /\
  LastNode (Some ch) = Ret Sim.hopB.
Proof.
  cbv zeta. split; [reflexivity|].
  exact (LastNode_of_last_group
           (Build_Chain false 0 [Sim.G0; Sim.G3]) [Sim.G0] Sim.G3 eq_refl).
Defined.

Lemma singleton_groups_LastNode_witness :
  let ch := newRoute [Sim.hopB; Sim.hopC] in
  singleton_groups ch /\
  Nodes ch = List.concat (map nodes (nodeGroups ch)) /\
  List.length (Nodes ch) = List.length (nodeGroups ch) /\
  LastNode (Some ch) = Ret (last (Nodes ch) zero_Node).
Proof.
  cbv zeta.
  assert (Hs : singleton_groups (newRoute [Sim.hopB; Sim.hopC]))
    by (repeat constructor).
  split; [exact Hs|].
  exact (singleton_groups_LastNode (newRoute [Sim.hopB; Sim.hopC]) Hs).
Defined.

(** ** Runs of the connection builder *)

Lemma contacted_app evs evs' :
  contacted (evs ++ evs') = contacted evs ++ contacted evs'.
Proof.
  induction evs as [|e evs IH]; [reflexivity|].
  destruct e; cbn; rewrite IH; reflexivity.
Qed.

Lemma asked_app evs evs' : asked (evs ++ evs') = asked evs ++ asked evs'.
Proof.
  induction evs as [|e evs IH]; [reflexivity|].
  destruct e; cbn; rewrite IH; reflexivity.
Qed.

Ltac trace_is evs :=
  exists evs;
  split; [unfold record; cbn; repeat rewrite <- List.app_assoc; reflexivity|];
  split; [reflexivity|].

Section Runs.

Context {X : Type} `{Collaborators X}.

Lemma getConn_range_run rest :
  forall preNode cn (s : State X) o s',
    getConn_range preNode cn rest s = (o, s') ->
    exists evs,
      trace s' = trace s ++ evs /\ asked evs = []
      /\ build_run (fun _ => 1%nat) rest o evs.
Proof.
  induction rest as [|node rest IH]; intros preNode cn s o s' E.
  - cbn in E. injection E as <- <-. exists []. rewrite app_nil_r.
    cbn. repeat split.
  - cbn [getConn_range] in E. revert E. unfold_calls.
    destruct (Client_of_node preNode) as [pcl|].
    2:{ intros E. injection E as <- <-. exists []. rewrite app_nil_r.
        split; [reflexivity|]. split; [reflexivity|].
        exists (map Addr (node :: rest)). reflexivity. }
    destruct (Client_Connect _ _ _ _) as [[cc|e] x].
    2:{ intros E. injection E as <- <-.
        trace_is [EConnect pcl (Some cn) (Addr node); EClose cn; EMarkDead node].
        exists [], node, rest. repeat split.
        exists [EConnect pcl (Some cn) (Addr node); EClose cn]. reflexivity. }
    destruct (Client_of_node node) as [cl|].
    2:{ intros E. injection E as <- <-.
        trace_is [EConnect pcl (Some cn) (Addr node)].
        exists (map Addr rest). reflexivity. }
    destruct (Client_Handshake _ _ _ _) as [[cc'|e] x'].
    2:{ intros E. injection E as <- <-.
        trace_is [EConnect pcl (Some cn) (Addr node);
                  EHandshake cl (Some cc) (HandshakeOptions node);
                  EClose cn; EMarkDead node].
        exists [], node, rest. repeat split.
        exists [EConnect pcl (Some cn) (Addr node);
                EHandshake cl (Some cc) (HandshakeOptions node);
                EClose cn]. reflexivity. }
    intros E. apply IH in E. destruct E as (evs & Ht & Ha & Hrun).
    unfold record in Ht. cbn in Ht.
    exists ([EConnect pcl (Some cn) (Addr node);
             EHandshake cl (Some cc) (HandshakeOptions node);
             EResetDead node] ++ evs).
    split; [rewrite Ht; repeat rewrite <- List.app_assoc; reflexivity|].
    split; [cbn; exact Ha|].
    destruct o as [[[c|] [e|]]|]; cbn in Hrun |- *; try contradiction.
    + destruct Hrun as (Hm & Hr & Hc & Hk). rewrite Hm, Hr, Hc, Hk.
      repeat split.
    + destruct Hrun as (pre & hi & post & -> & Hm & Hr & Hc & Hk & evs0 & ->).
      exists (node :: pre), hi, post. rewrite Hm, Hr, Hk. repeat split.
      * exact Hc.
      * exists ([EConnect pcl (Some cn) (Addr node);
                 EHandshake cl (Some cc) (HandshakeOptions node);
                 EResetDead node] ++ evs0). reflexivity.
    + destruct Hrun as (more & ->). exists more. reflexivity.
Qed.

Lemma getConn_run ch (s : State X) o s' :
  IsEmpty (Some ch) = false ->
  getConn (Some ch) s = (o, s') ->
  exists evs,
    trace s' = trace s ++ evs /\ asked evs = []
    /\ build_run closed_on_failure (Nodes ch) o evs.
Proof.
  intros Hne E. unfold getConn in E. rewrite Hne in E.
  destruct (Nodes ch) as [|node rest].
  { injection E as <- <-. exists []. rewrite app_nil_r.
    split; [reflexivity|]. split; [reflexivity|]. exists []. reflexivity. }
  revert E. unfold_calls.
  destruct (Client_of_node node) as [cl|].
  2:{ intros E. injection E as <- <-. exists []. rewrite app_nil_r.
      split; [reflexivity|]. split; [reflexivity|].
      exists (map Addr (node :: rest)). reflexivity. }
  destruct (Client_Dial _ _ _ _) as [[cn|e] x].
  2:{ intros E. injection E as <- <-.
      trace_is [EDial cl (Addr node) (DialOptions node); EMarkDead node].
      exists [], node, rest. repeat split.
      exists [EDial cl (Addr node) (DialOptions node)]. reflexivity. }
  destruct (Client_Handshake _ _ _ _) as [[cn'|e] x'].
  2:{ intros E. injection E as <- <-.
      trace_is [EDial cl (Addr node) (DialOptions node);
                EHandshake cl (Some cn) (HandshakeOptions node);
                EMarkDead node].
      exists [], node, rest. repeat split.
      exists [EDial cl (Addr node) (DialOptions node);
              EHandshake cl (Some cn) (HandshakeOptions node)]. reflexivity. }
  intros E. apply getConn_range_run in E.
  destruct E as (evs & Ht & Ha & Hrun). unfold record in Ht. cbn in Ht.
  exists ([EDial cl (Addr node) (DialOptions node);
           EHandshake cl (Some cn) (HandshakeOptions node);
           EResetDead node] ++ evs).
  split; [rewrite Ht; repeat rewrite <- List.app_assoc; reflexivity|].
  split; [cbn; exact Ha|].
  destruct o as [[[c|] [e|]]|]; cbn in Hrun |- *; try contradiction.
  - destruct Hrun as (Hm & Hr & Hc & Hk). rewrite Hm, Hr, Hc, Hk.
    repeat split.
  - destruct Hrun as (pre & hi & post & -> & Hm & Hr & Hc & Hk & evs0 & ->).
    exists (node :: pre), hi, post. rewrite Hm, Hr, Hk. repeat split.
    + exact Hc.
    + exists ([EDial cl (Addr node) (DialOptions node);
               EHandshake cl (Some cn) (HandshakeOptions node);
               EResetDead node] ++ evs0). reflexivity.
  - destruct Hrun as (more & ->). exists more. reflexivity.
Qed.

End Runs.

Section RunFacts.

Context {X : Type} `{Collaborators X}.

(** X7.  A run of [getConn] on a non-empty chain that returns is one pass
    over the nodes, from the first on: the nodes reset are a prefix of
    the nodes of the chain.  On success all nodes are reset, none is
    marked dead and no connection is closed.  On failure exactly one node
    is marked dead, the one that follows the nodes reset, marking it is
    the last call made, and at most one connection is closed: none when
    the first node fails, one otherwise. *)
Theorem getConn_one_pass ch (s : State X) r s' :
  IsEmpty (Some ch) = false ->
  getConn (Some ch) s = (Ret r, s') ->
  exists evs post,
    emits s s' evs
    /\ Nodes ch = resets evs ++ marked evs ++ post
    /\ match r with
       | (Some _, None) => marked evs = [] /\ post = [] /\ closes evs = []
       | (None, Some _) =>
           exists hi evs0,
             marked evs = [hi] /\ evs = evs0 ++ [EMarkDead hi]
             /\ List.length (closes evs) = closed_on_failure (resets evs)
       | _ => False
       end.
Proof.
  intros Hne E. destruct (getConn_run ch s (Ret r) s' Hne E)
    as (evs & Ht & _ & Hrun).
  destruct r as [[c|] [e|]]; cbn in Hrun; try contradiction.
  - destruct Hrun as (Hm & Hr & Hc & _). exists evs, [].
    split; [exact Ht|]. rewrite Hm, Hr, app_nil_r. auto.
  - destruct Hrun as (pre & hi & post & En & Hm & Hr & Hc & _ & evs0 & E0).
    exists evs, post. split; [exact Ht|]. rewrite Hm, Hr. split; [exact En|].
    exists hi, evs0. auto.
Qed.

(** X8.  [getConn] reaches out to the nodes in the order of the chain,
    and asks no group to select: the addresses it dials or connects
    through to are, in order, a prefix of the addresses of the nodes of
    the chain; all of them when it succeeds, and up to the node it marks
    dead when it fails. *)
Theorem getConn_contacts_in_order ch (s : State X) o s' :
  IsEmpty (Some ch) = false ->
  getConn (Some ch) s = (o, s') ->
  exists evs more,
    emits s s' evs /\ asked evs = []
    /\ map Addr (Nodes ch) = contacted evs ++ more
    /\ match o with
       | Ret (Some _, None) => more = []
       | Ret (_, Some _) =>
           exists hi, marked evs = [hi]
                      /\ last (contacted evs) "" = Addr hi
       | _ => True
       end.
Proof.
  intros Hne E. destruct (getConn_run ch s o s' Hne E)
    as (evs & Ht & Ha & Hrun).
  destruct o as [[[c|] [e|]]|]; cbn in Hrun; try contradiction.
  - destruct Hrun as (_ & _ & _ & Hk). exists evs, [].
    rewrite app_nil_r. auto.
  - destruct Hrun as (pre & hi & post & En & Hm & _ & _ & Hk & _).
    exists evs, (map Addr post). split; [exact Ht|]. split; [exact Ha|].
    rewrite Hk, En, !map_app, <- List.app_assoc. split; [reflexivity|].
    exists hi. split; [exact Hm|].
    cbn [map]. apply (last_app_nonempty _ [Addr hi] "" ""). discriminate.
  - destruct Hrun as (more & Hk). exists evs, more. auto.
Qed.

Lemma getConn_range_never_panics rest :
  forall preNode cn (s : State X),
    has_client preNode -> Forall has_client rest ->
    fst (getConn_range preNode cn rest s) <> Panic.
Proof.
  unfold has_client.
  induction rest as [|node rest IH]; intros preNode cn s Hp Hall.
  - discriminate.
  - inversion Hall as [|n l Hn Hrest]; subst.
    cbn [getConn_range]. unfold_calls.
    destruct (Client_of_node preNode) as [pcl|]; [|congruence].
    destruct (Client_Connect _ _ _ _) as [[cc|e] x]; [|discriminate].
    destruct (Client_of_node node) as [cl|] eqn:Ecl; [|congruence].
    destruct (Client_Handshake _ _ _ _) as [[cc'|e] x']; [|discriminate].
    apply IH; [rewrite Ecl; discriminate | exact Hrest].
Qed.

Lemma getConn_never_panics ch (s : State X) :
  Forall (fun g => nodes g <> []) (nodeGroups ch) ->
  Forall has_client (Nodes ch) ->
  fst (getConn (Some ch) s) <> Panic.
Proof.
  intros Hg Hc. unfold getConn.
  destruct (IsEmpty (Some ch)) eqn:Ee; [discriminate|].
  destruct (Nodes ch) as [|node rest] eqn:En.
  - exfalso. unfold Nodes in En. rewrite Nodes_of_nonempty_groups in En
      by exact Hg.
    cbn in Ee. destruct (nodeGroups ch); discriminate.
  - inversion Hc as [|n l Hn Hrest]; subst. unfold_calls.
    destruct (Client_of_node node) as [cl|] eqn:Ecl;
      [|exfalso; apply Hn; exact Ecl].
    destruct (Client_Dial _ _ _ _) as [[cn|e] x]; [|discriminate].
    destruct (Client_Handshake _ _ _ _) as [[cn'|e] x']; [|discriminate].
    apply getConn_range_never_panics; [exact Hn | exact Hrest].
Qed.

(** X14.  Take collaborators that return, and answer with a connection
    that is not nil or with an error, and clients whose transporter and
    connector are set.  Then [getConn] does not panic on a chain in which
    every group has a node and every listed node has a client.  On a
    chain that has groups but no node at all it panics, on [nodes[0]]. *)
Theorem getConn_panics_only_without_nodes ch ch0 (s : State X) :
  Forall (fun g => nodes g <> []) (nodeGroups ch) ->
  Forall has_client (Nodes ch) ->
  nodeGroups ch0 <> [] ->
  Nodes ch0 = [] ->
  fst (getConn (Some ch) s) <> Panic
  /\ getConn (Some ch0) s = (Panic, s).
Proof.
  intros Hg Hc Hne En. split; [apply getConn_never_panics; assumption|].
  unfold getConn. rewrite (IsEmpty_Some_false ch0 Hne), En. reflexivity.
Qed.

(** X16.  No operation hands out a connection together with an error:
    [getConn], [dial], [Dial] and [Conn] return a connection, or an error,
    or neither. *)
Theorem never_conn_with_error c ch addr (s : State X) :
  no_conn_with_error (fst (getConn c s))
  /\ no_conn_with_error (fst (dial ch addr s))
  /\ no_conn_with_error (fst (Dial c addr s))
  /\ no_conn_with_error (fst (Conn c s)).
Proof.
  split; [apply getConn_shape|]. split; [apply dial_shape|].
  split; [apply Dial_shape | apply Conn_shape].
Qed.

End RunFacts.

(** ** The last segment of the selections *)

Lemma segment_nil : segment [] [] [].
Proof.
  unfold segment. repeat split; auto; try constructor; try discriminate.
  intros Hc. congruence.
Qed.

Lemma segment_plain pre suf ns n :
  segment pre suf ns -> is_multiplex n = false ->
  segment pre (suf ++ [n]) (ns ++ [n]).
Proof.
  intros (HF & Htl & Hnm & Hpre & Hhd & Hnil) Hn. unfold segment.
  destruct suf as [|a l].
  - inversion HF; subst. cbn.
    split; [constructor; [left; reflexivity | constructor]|].
    split; [reflexivity|]. split; [constructor|].
    split; [intros Hp; exfalso; apply Hp, Hnil; reflexivity|].
    split; [auto | discriminate].
  - inversion HF as [|a' b l0 l' Hab Hll]; subst. cbn in Htl. subst l'.
    cbn in Hnm. cbn.
    split.
    { constructor; [exact Hab|]. apply Forall2_app; [exact Hll|].
      constructor; [left; reflexivity | constructor]. }
    split; [reflexivity|].
    split; [apply Forall_app; split; [exact Hnm | constructor; [exact Hn | constructor]]|].
    split; [exact Hpre|]. split; [exact Hhd | discriminate].
Qed.

Lemma segment_cut pre n sealed :
  built_route sealed -> is_multiplex n = true ->
  segment pre [n] [append_DialOption n (ChainDialOption (Some sealed))].
Proof.
  intros Hb Hn. unfold segment. cbn.
  split; [constructor; [right; exists sealed; auto | constructor]|].
  split; [reflexivity|]. split; [constructor|].
  split; [intros _; exists n; auto|].
  split; [|discriminate].
  intros h Eh Hh. injection Eh as <-. congruence.
Qed.

Lemma built_route_groups r :
  built_route r ->
  nodeGroups r = map (fun n => NewNodeGroup [n]) (Nodes r).
Proof.
  induction 1 as [ns | r n _ IH | r ns r' _ IH E].
  - rewrite Nodes_newRoute. apply nodeGroups_newRoute.
  - exact IH.
  - cbn in E. injection E as <-.
    destruct (fold_append_groups ns r) as (_ & _ & Hg). cbv zeta in Hg.
    unfold Nodes. rewrite Hg, Nodes_of_groups_app, Nodes_of_singletons.
    rewrite map_app. unfold Nodes in IH. rewrite <- IH. reflexivity.
Qed.

(** ** Runs of the route selection *)

Section SelectionRuns.

Context {X : Type} `{Collaborators X}.

(** The loop of [selectRoute] asks the groups in order and stops at the
    first one that fails. *)
Lemma selectRoute_range_asks retries groups :
  forall route buf (s : State X) o s',
    selectRoute_range retries groups route buf s = (o, s') ->
    exists evs,
      trace s' = trace s ++ evs
      /\ match o with
         | Ret (_, None) => evs = map ENext groups
         | Ret (res, Some e) =>
             res = None
             /\ exists pre g post x,
                 groups = pre ++ g :: post
                 /\ evs = map ENext (pre ++ [g])
                 /\ group_Next g x = (Fail e, ext s')
         | Panic =>
             exists pre g post,
               groups = pre ++ g :: post /\ evs = map ENext (pre ++ [g])
         end.
Proof.
  induction groups as [|group rest IH]; intros route buf s o s' E.
  - cbn [selectRoute_range] in E. unfold bind, ret, Log in E.
    exists []. rewrite app_nil_r.
    destruct Debug; injection E as <- <-; auto.
  - cbn [selectRoute_range] in E. revert E. unfold_calls.
    destruct (group_Next group (ext s)) as [[node|e] x] eqn:En.
    2:{ intros E. injection E as <- <-. exists [ENext group].
        split; [reflexivity|]. split; [reflexivity|].
        exists [], group, rest, (ext s). auto. }
    destruct (Client_of_node node) as [cl|].
    2:{ intros E. injection E as <- <-. exists [ENext group].
        split; [reflexivity|]. exists [], group, rest. auto. }
    assert (G : forall route',
               selectRoute_range retries rest route'
                 (buf ++ Node_String node ++ " -> ")%string
                 (record (ENext group) x s) = (o, s') ->
               exists evs,
                 trace s' = trace s ++ evs
                 /\ match o with
                    | Ret (_, None) => evs = map ENext (group :: rest)
                    | Ret (res, Some e) =>
                        res = None
                        /\ exists pre g post x,
                            group :: rest = pre ++ g :: post
                            /\ evs = map ENext (pre ++ [g])
                            /\ group_Next g x = (Fail e, ext s')
                    | Panic =>
                        exists pre g post,
                          group :: rest = pre ++ g :: post
                          /\ evs = map ENext (pre ++ [g])
                    end).
    { intros route' E. apply IH in E. destruct E as (evs & Ht & Ho).
      exists (ENext group :: evs). split.
      - rewrite Ht. cbn. rewrite <- List.app_assoc. reflexivity.
      - destruct o as [[res [e|]]|].
        + destruct Ho as (-> & pre & g & post & x0 & -> & -> & Hf).
          split; [reflexivity|].
          exists (group :: pre), g, post, x0. auto.
        + rewrite Ho. reflexivity.
        + destruct Ho as (pre & g & post & -> & ->).
          exists (group :: pre), g, post. auto. }
    destruct (Multiplex (Transporter_of cl)); apply G.
Qed.

(** X10.  On a chain that is not a route, [selectRoute] asks the groups
    to select, one after the other in chain order, and does nothing
    else.  When all select, every group was asked once.  When one fails,
    its error is returned with a nil route, never a partial one, and no
    group after it is asked. *)
Theorem selectRoute_asks_in_order ch (s : State X) o s' :
  isRoute ch = false ->
  selectRoute ch s = (o, s') ->
  exists evs,
    emits s s' evs
    /\ match o with
       | Ret (_, None) => evs = map ENext (nodeGroups ch)
       | Ret (res, Some e) =>
           res = None
           /\ exists pre g post x,
               nodeGroups ch = pre ++ g :: post
               /\ evs = map ENext (pre ++ [g])
               /\ group_Next g x = (Fail e, ext s')
       | Panic =>
           exists pre g post,
             nodeGroups ch = pre ++ g :: post /\ evs = map ENext (pre ++ [g])
       end.
Proof.
  intros Er E. unfold selectRoute in E. rewrite Er in E.
  apply selectRoute_range_asks in E. exact E.
Qed.

Lemma selectRoute_range_route retries groups :
  forall r0 buf (s : State X) res s',
    selectRoute_range retries groups (Some r0) buf s = (Ret (res, None), s') ->
    isRoute r0 = true -> Retries r0 = retries ->
    exists r,
      res = Some r /\ isRoute r = true /\ Retries r = retries
      /\ (List.length (nodeGroups r)
          <= List.length (nodeGroups r0) + List.length groups)%nat
      /\ (groups <> [] -> nodeGroups r <> [])
      /\ (groups = [] -> r = r0).
Proof.
  induction groups as [|group rest IH]; intros r0 buf s res s' E Hr Ht.
  - cbn [selectRoute_range] in E. unfold bind, ret, Log in E.
    exists r0. destruct Debug; injection E as <- _;
      (repeat split; auto; try lia; congruence).
  - cbn [selectRoute_range] in E. revert E. unfold_calls.
    destruct (group_Next group (ext s)) as [[node|e] x]; [|discriminate].
    destruct (Client_of_node node) as [cl|]; [|discriminate].
    destruct (Multiplex (Transporter_of cl)); rewrite AddNode_one; intros E;
      apply IH in E; try reflexivity; try (cbn; assumption).
    + destruct E as (r & -> & Hr' & Ht' & Hl & Hne & Hr0).
      exists r. repeat split; auto; try discriminate.
      * cbn in Hl |- *. lia.
      * intros _. destruct rest as [|g2 rest].
        -- rewrite (Hr0 eq_refl). discriminate.
        -- apply Hne. discriminate.
    + destruct E as (r & -> & Hr' & Ht' & Hl & Hne & Hr0).
      exists r. repeat split; auto; try discriminate.
      * cbn in Hl |- *. rewrite length_app in Hl. cbn in Hl. lia.
      * intros _. destruct rest as [|g2 rest].
        -- rewrite (Hr0 eq_refl). cbn. destruct (nodeGroups r0); discriminate.
        -- apply Hne. discriminate.
Qed.

(** X11.  A successful [selectRoute] returns a route, never nil, that
    carries the retry count of the chain, is empty exactly when the chain
    is, and has at most as many groups as the chain. *)
Theorem selectRoute_returns_route ch (s : State X) res s' :
  selectRoute ch s = (Ret (res, None), s') ->
  exists r,
    res = Some r
    /\ isRoute r = true
    /\ Retries r = Retries ch
    /\ IsEmpty (Some r) = IsEmpty (Some ch)
    /\ (List.length (nodeGroups r) <= List.length (nodeGroups ch))%nat.
Proof.
  intros E. unfold selectRoute in E. destruct (isRoute ch) eqn:Er.
  - injection E as <- _. exists ch. repeat split; auto.
  - apply selectRoute_range_route in E; try reflexivity.
    destruct E as (r & -> & Hr & Ht & Hl & Hne & Hr0).
    exists r. repeat split; auto.
    cbn. destruct (nodeGroups ch) as [|g gs] eqn:Eg.
    + rewrite (Hr0 eq_refl). reflexivity.
    + destruct (nodeGroups r); [|reflexivity].
      exfalso. apply Hne; [discriminate | reflexivity].
Qed.

Lemma selectRoute_range_segment retries groups :
  forall r0 buf (s : State X) r s',
    selectRoute_range retries groups (Some r0) buf s
    = (Ret (Some r, None), s') ->
    built_route r0 ->
    forall pre suf,
      segment pre suf (Nodes r0) ->
      exists pre' suf',
        (pre ++ suf) ++ selections groups (ext s) = pre' ++ suf'
        /\ segment pre' suf' (Nodes r)
        /\ List.length (selections groups (ext s)) = List.length groups.
Proof.
  induction groups as [|group rest IH]; intros r0 buf s r s' E Hb pre suf Hseg.
  - cbn [selectRoute_range] in E. unfold bind, ret, Log in E.
    exists pre, suf. cbn. rewrite app_nil_r.
    destruct Debug; injection E as <- _; auto.
  - cbn [selectRoute_range] in E. revert E. unfold_calls.
    cbn [selections].
    destruct (group_Next group (ext s)) as [[node|e] x]; [|discriminate].
    destruct (Client_of_node node) as [cl|] eqn:Ecl; [|discriminate].
    destruct (Multiplex (Transporter_of cl)) eqn:Em; rewrite AddNode_one;
      intros E.
    + apply IH with (pre := pre ++ suf) (suf := [node]) in E.
      * destruct E as (pre' & suf' & Es & Hs & Hl). exists pre', suf'.
        cbn [ext record] in *. rewrite <- Es, <- !List.app_assoc.
        cbn. rewrite Hl. auto.
      * apply built_AddNode
          with (r := set_Retries (newRoute []) retries)
               (ns := [append_DialOption node (ChainDialOption (Some r0))]);
          [apply built_set_Retries, built_newRoute | reflexivity].
      * unfold Nodes. cbn. apply segment_cut; [exact Hb|].
        unfold is_multiplex. rewrite Ecl. exact Em.
    + apply IH with (pre := pre) (suf := suf ++ [node]) in E.
      * destruct E as (pre' & suf' & Es & Hs & Hl). exists pre', suf'.
        cbn [ext record] in *. rewrite <- Es, <- !List.app_assoc.
        cbn. rewrite Hl. auto.
      * apply built_AddNode with (r := r0) (ns := [node]);
          [exact Hb | reflexivity].
      * unfold Nodes in *. cbn [nodeGroups]. rewrite Nodes_of_groups_app.
        cbn. apply segment_plain; [exact Hseg|].
        unfold is_multiplex. rewrite Ecl. exact Em.
Qed.

Lemma selectRoute_range_resolve retries groups :
  forall r0 buf (s : State X) r s',
    selectRoute_range retries groups (Some r0) buf s
    = (Ret (Some r, None), s') ->
    r = fold_left (resolve_step retries) (selections groups (ext s)) r0
    /\ List.length (selections groups (ext s)) = List.length groups.
Proof.
  induction groups as [|group rest IH]; intros r0 buf s r s' E.
  - cbn [selectRoute_range] in E. unfold bind, ret, Log in E.
    destruct Debug; injection E as <- _; auto.
  - cbn [selectRoute_range] in E. revert E. unfold_calls.
    cbn [selections].
    destruct (group_Next group (ext s)) as [[node|e] x]; [|discriminate].
    destruct (Client_of_node node) as [cl|] eqn:Ecl; [|discriminate].
    assert (Em : is_multiplex node = Multiplex (Transporter_of cl))
      by (unfold is_multiplex; rewrite Ecl; reflexivity).
    cbn [fold_left]. unfold resolve_step at 2. rewrite Em.
    destruct (Multiplex (Transporter_of cl)); rewrite AddNode_one;
      intros E; apply IH in E; cbn [ext record] in E;
      destruct E as [-> Hl]; cbn [List.length]; rewrite Hl; auto.
Qed.

Lemma Nodes_resolve_step_plain retries route n :
  is_multiplex n = false ->
  Nodes (resolve_step retries route n) = Nodes route ++ [n].
Proof.
  intros Hn. unfold resolve_step. rewrite Hn. unfold Nodes. cbn [nodeGroups].
  rewrite Nodes_of_groups_app. reflexivity.
Qed.

(** The route resolved from a list of selections is its last segment. *)
Lemma resolve_segment retries sel :
  exists pre suf,
    sel = pre ++ suf
    /\ Forall (fun n => is_multiplex n = false) (tl suf)
    /\ match suf with
       | [] => pre = [] /\ Nodes (resolve retries sel) = []
       | h :: rest =>
           if is_multiplex h then
             Nodes (resolve retries sel)
             = append_DialOption
                 h (ChainDialOption (Some (resolve retries pre))) :: rest
           else
             pre = [] /\ Nodes (resolve retries sel) = h :: rest
       end.
Proof.
  induction sel as [|n sel IH] using rev_ind.
  - exists [], []. repeat split. constructor.
  - unfold resolve in *. rewrite fold_left_app. cbn [fold_left].
    destruct (is_multiplex n) eqn:Hn.
    + exists sel, [n]. split; [reflexivity|]. split; [constructor|].
      rewrite Hn. unfold resolve_step. rewrite Hn. reflexivity.
    + destruct IH as (pre & suf & -> & Hnm & Hs).
      exists pre, (suf ++ [n]). split; [symmetry; apply List.app_assoc|].
      rewrite Nodes_resolve_step_plain by exact Hn.
      destruct suf as [|h rest].
      * destruct Hs as [-> ->]. cbn. split; [constructor|].
        rewrite Hn. auto.
      * cbn [tl app] in *. split.
        { apply Forall_app. split; [exact Hnm|].
          constructor; [exact Hn | constructor]. }
        destruct (is_multiplex h).
        -- rewrite Hs. reflexivity.
        -- destruct Hs as [-> ->]. auto.
Qed.

(** X13.  On a chain that is not a route, a successful [selectRoute] has
    one selection per group, and the route is the last segment of the
    selections, in order: the segment that starts at the last multiplexing
    node selected (at the first node when none is multiplexing).  The
    nodes after the head of the segment are not multiplexing and are in
    the route as selected.  A head that is not multiplexing is in the
    route as selected too, and nothing was cut off before it.  A
    multiplexing head carries, appended to its dial options, the route
    resolved in this same way, with the retry count of the chain, from
    the selections before it. *)
Theorem selectRoute_last_segment ch (s : State X) r s' :
  isRoute ch = false ->
  selectRoute ch s = (Ret (Some r, None), s') ->
  exists pre suf,
    selections (nodeGroups ch) (ext s) = pre ++ suf
    /\ List.length (pre ++ suf) = List.length (nodeGroups ch)
    /\ r = resolve (Retries ch) (pre ++ suf)
    /\ Forall (fun n => is_multiplex n = false) (tl suf)
    /\ match suf with
       | [] => pre = [] /\ Nodes r = []
       | h :: rest =>
           if is_multiplex h then
             Nodes r
             = append_DialOption
                 h (ChainDialOption (Some (resolve (Retries ch) pre))) :: rest
           else
             pre = [] /\ Nodes r = h :: rest
       end.
Proof.
  intros Er E. unfold selectRoute in E. rewrite Er in E.
  apply selectRoute_range_resolve in E. destruct E as [Hr Hl].
  change (fold_left (resolve_step (Retries ch))
            (selections (nodeGroups ch) (ext s))
            (set_Retries (newRoute []) (Retries ch)))
    with (resolve (Retries ch) (selections (nodeGroups ch) (ext s))) in Hr.
  destruct (resolve_segment (Retries ch) (selections (nodeGroups ch) (ext s)))
    as (pre & suf & Es & Hnm & Hs).
  exists pre, suf. subst r. rewrite Es in *.
  split; [reflexivity|]. split; [exact Hl|]. split; [reflexivity|].
  split; [exact Hnm | exact Hs].
Qed.

(** X12.  When none of the nodes selected is multiplexing, the route of a
    successful [selectRoute] is made of the nodes selected, one per
    group, in chain order and as they were selected. *)
Theorem selectRoute_plain ch (s : State X) r s' :
  isRoute ch = false ->
  selectRoute ch s = (Ret (Some r, None), s') ->
  Forall (fun n => is_multiplex n = false)
         (selections (nodeGroups ch) (ext s)) ->
  Nodes r = selections (nodeGroups ch) (ext s)
  /\ nodeGroups r
     = map (fun n => NewNodeGroup [n]) (selections (nodeGroups ch) (ext s))
  /\ List.length (Nodes r) = List.length (nodeGroups ch).
Proof.
  intros Er E Hplain. unfold selectRoute in E. rewrite Er in E.
  pose proof E as E2.
  apply selectRoute_range_segment with (pre := []) (suf := []) in E;
    [|apply built_set_Retries, built_newRoute | apply segment_nil].
  destruct E as (pre & suf & Es & (HF & Htl & _ & Hpre & Hhd & Hnil) & Hl).
  cbn in Es. rewrite Es in *.
  assert (Ep : pre = []).
  { destruct pre as [|p pre]; [reflexivity|]. exfalso.
    destruct Hpre as (h & Eh & Hh); [discriminate|].
    apply Forall_app in Hplain. destruct Hplain as [_ Hsuf].
    destruct suf as [|a l]; [discriminate|]. injection Eh as <-.
    inversion Hsuf; subst. congruence. }
  subst pre. cbn in *.
  assert (En : Nodes r = suf).
  { destruct suf as [|a l].
    - inversion HF. reflexivity.
    - inversion HF as [|a' b l0 l' Hab Hll Ea Eb]; subst.
      rewrite <- Eb in Htl, Hhd. cbn in Htl. subst l'.
      inversion Hplain; subst.
      specialize (Hhd a eq_refl ltac:(assumption)). cbn in Hhd.
      injection Hhd as ->. reflexivity. }
  split; [exact En|]. split; [|rewrite En; exact Hl].
  rewrite <- En. apply built_route_groups.
  apply selectRoute_range_built in E2;
    [| apply built_set_Retries, built_newRoute | constructor].
  destruct E2 as (_ & Hb & _). exact Hb.
Qed.

End SelectionRuns.

(** ** The last step of [dial], and what never panics *)


Section Attempts.

Context {X : Type} `{Collaborators X}.

(** X9.  Once the route is built, [dial] asks the client of the route's
    last node to connect through to the target.  When this succeeds
    [dial] returns the new connection and has closed nothing.  When it
    fails [dial] closes the connection of the route, the only connection
    closed in the attempt, and returns the error; no node is marked dead
    for it. *)
Theorem dial_final_connect ch addr (s s1 s2 : State X)
        route conn lastn cl r x' :
  selectRoute ch s = (Ret (route, None), s1) ->
  getConn route s1 = (Ret (Some conn, None), s2) ->
  LastNode route = Ret lastn ->
  Client_of_node lastn = Some cl ->
  Client_Connect cl (Some conn) addr (ext s2) = (r, x') ->
  exists evs,
    emits s1 s2 evs /\ closes evs = [] /\ marked evs = []
    /\ match r with
       | Ok cc =>
           dial ch addr s
           = (Ret (Some cc, None),
              {| ext := x';
                 trace := trace s2 ++ [EConnect cl (Some conn) addr];
                 logged := logged s2 |})
       | Fail e =>
           dial ch addr s
           = (Ret (None, Some e),
              {| ext := Conn_Close conn x';
                 trace := trace s2 ++ [EConnect cl (Some conn) addr;
                                       EClose conn];
                 logged := logged s2 |})
       end.
Proof.
  intros Es Eg El Ecl Ec.
  destruct route as [rt|]; [|cbn in Eg; discriminate].
  destruct (getConn_success rt s1 s2 conn Eg) as (evs & Ht & Hm & _ & Hc).
  exists evs. split; [exact Ht|]. split; [exact Hc|]. split; [exact Hm|].
  unfold dial. rewrite (bind_Ret _ _ _ _ _ Es). cbn beta iota.
  rewrite (bind_Ret _ _ _ _ _ Eg). cbn beta iota.
  unfold_calls. rewrite El, Ecl, Ec. unfold record.
  destruct r as [cc|e]; cbn; [reflexivity|].
  rewrite <- List.app_assoc. reflexivity.
Qed.

Lemma getConn_not_nil_nil c (s s' : State X) :
  getConn c s <> (Ret (None, None), s').
Proof.
  intros E. destruct (IsEmpty c) eqn:Ee.
  - unfold getConn in E. rewrite Ee in E. discriminate.
  - destruct c as [ch|]; [|discriminate].
    destruct (getConn_run ch s _ s' Ee E) as (evs & _ & _ & Hrun).
    exact Hrun.
Qed.



Section Safe.

Variable ch : Chain.
Hypothesis unresolved : isRoute ch = false.
Hypothesis clients :
  forall g, In g (nodeGroups ch) ->
            forall x n x', group_Next g x = (Ok n, x') -> has_client n.





End Safe.

End Attempts.

Section NeverPanics.

Context {X : Type} `{Collaborators X}.


(** *** Resolved routes are dialed as they are *)

Lemma quiet_ret {A} (a : A) : quiet (X := X) (ret a).
Proof. intros s. exists []. cbn. rewrite app_nil_r. auto. Qed.

Lemma quiet_panic {A} : quiet (X := X) (@panic X A).
Proof. intros s. exists []. cbn. rewrite app_nil_r. auto. Qed.

Lemma quiet_bind {A B} (m : M X A) (k : A -> M X B) :
  quiet m -> (forall a, quiet (k a)) -> quiet (bind m k).
Proof.
  intros Hm Hk s. unfold bind. destruct (Hm s) as (evs & E & Ha).
  destruct (m s) as [[a|] s1]; cbn in E.
  - destruct (Hk a s1) as (evs' & E' & Ha'). exists (evs ++ evs').
    rewrite E', E, List.app_assoc, asked_app, Ha, Ha'. auto.
  - exists evs. auto.
Qed.

Lemma quiet_call {A} e (f : X -> A * X) :
  asked [e] = [] -> quiet (X := X) (call e f).
Proof.
  intros He s. unfold call. destruct (f (ext s)) as [a x]. exists [e]. auto.
Qed.

Lemma quiet_Close cn : quiet (X := X) (do_Close cn).
Proof.
  destruct cn; [|apply quiet_panic]. intros s. exists [EClose c]. auto.
Qed.

Lemma quiet_getConn c : quiet (X := X) (getConn c).
Proof.
  intros s. destruct (IsEmpty c) eqn:Ee.
  - unfold getConn. rewrite Ee. exists []. cbn. rewrite app_nil_r. auto.
  - destruct c as [ch|]; [|discriminate].
    destruct (getConn (Some ch) s) as [o s'] eqn:E.
    destruct (getConn_run ch s o s' Ee E) as (evs & Ht & Ha & _).
    exists evs. auto.
Qed.

Lemma quiet_dial ch addr : isRoute ch = true -> quiet (X := X) (dial ch addr).
Proof.
  intros Er s. unfold dial.
  rewrite (bind_Ret _ _ _ _ _ (selectRoute_isRoute ch s Er)). cbn beta iota.
  revert s. change (quiet
    ('(conn, err) <- getConn (Some ch);;
     match err with
     | Some e => ret (None, Some e)
     | None =>
         last <- lift (LastNode (Some ch));;
         cl <- the_Client last;;
         r <- do_Connect cl conn addr;;
         match r with
         | Fail e => do_Close conn;; ret (None, Some e)
         | Ok cc => ret (Some cc, None)
         end
     end)).
  apply quiet_bind; [apply quiet_getConn|]. intros [conn [e|]].
  - apply quiet_ret.
  - apply quiet_bind.
    { unfold lift. intros s. exists []. cbn. rewrite app_nil_r. auto. }
    intros last. apply quiet_bind.
    { unfold the_Client. destruct (Client_of_node last);
        [apply quiet_ret | apply quiet_panic]. }
    intros cl. apply quiet_bind; [apply quiet_call; reflexivity|].
    intros [cc|e]; [apply quiet_ret|].
    apply quiet_bind; [apply quiet_Close | intros _; apply quiet_ret].
Qed.

Lemma quiet_Dial_for n ch addr :
  isRoute ch = true ->
  forall conn err, quiet (X := X) (Dial_for n ch addr conn err).
Proof.
  intros Er. induction n as [|n IH]; intros conn err; cbn [Dial_for].
  - apply quiet_ret.
  - apply quiet_bind; [apply quiet_dial, Er|].
    intros [conn' [e|]]; [apply IH | apply quiet_ret].
Qed.

Lemma quiet_Conn_for n ch :
  isRoute ch = true ->
  forall conn err, quiet (X := X) (Conn_for n ch conn err).
Proof.
  intros Er. induction n as [|n IH]; intros conn err; cbn [Conn_for].
  - apply quiet_ret.
  - apply quiet_bind.
    { intros s. rewrite (selectRoute_isRoute ch s Er). exists [].
      cbn. rewrite app_nil_r. auto. }
    intros [route [e|]]; [apply IH|].
    apply quiet_bind; [apply quiet_getConn|].
    intros [conn' [e|]]; [apply IH | apply quiet_ret].
Qed.

Lemma getConn_contacts ch (s : State X) :
  IsEmpty (Some ch) = false ->
  exists evs more,
    emits s (snd (getConn (Some ch) s)) evs
    /\ asked evs = []
    /\ map Addr (Nodes ch) = contacted evs ++ more
    /\ (forall cn, fst (getConn (Some ch) s) = Ret (Some cn, None) ->
                   more = []).
Proof.
  intros Hne. destruct (getConn (Some ch) s) as [o s'] eqn:E.
  destruct (getConn_run ch s o s' Hne E) as (evs & Ht & Ha & Hrun).
  cbn [fst snd]. unfold emits.
  destruct o as [[[c|] [e|]]|]; cbn in Hrun; try contradiction.
  - destruct Hrun as (_ & _ & _ & Hk). exists evs, [].
    rewrite app_nil_r. auto.
  - destruct Hrun as (pre & hi & post & En & _ & _ & _ & Hk & _).
    exists evs, (map Addr post). split; [exact Ht|]. split; [exact Ha|].
    split; [|discriminate].
    rewrite Hk, En, !map_app, <- List.app_assoc. reflexivity.
  - destruct Hrun as (more & Hk). exists evs, more.
    split; [exact Ht|]. split; [exact Ha|]. split; [exact Hk|discriminate].
Qed.

Lemma Conn_attempt_route ch (s : State X) :
  isRoute ch = true -> Conn_attempt ch s = getConn (Some ch) s.
Proof.
  intros Er. rewrite Conn_attempt_eq, (selectRoute_isRoute ch s Er).
  reflexivity.
Qed.

Lemma Conn_attempt_dials_route ch (s : State X) :
  isRoute ch = true -> IsEmpty (Some ch) = false ->
  dials_route ch [] s (Conn_attempt ch s).
Proof.
  intros Er Hne. rewrite (Conn_attempt_route ch s Er).
  destruct (getConn_contacts ch s Hne) as (evs & more & Ht & Ha & Hk & _).
  exists evs, [], more. rewrite !app_nil_r. auto.
Qed.

Lemma dial_dials_route ch addr (s : State X) :
  isRoute ch = true -> IsEmpty (Some ch) = false ->
  dials_route ch [addr] s (dial ch addr s).
Proof.
  intros Er Hne.
  destruct (getConn_contacts ch s Hne) as (evs1 & more1 & Ht & Ha & Hk & Hs).
  unfold dials_route, emits in *.
  destruct (dial ch addr s) as [o sf] eqn:Ed. cbn [snd].
  unfold dial in Ed.
  rewrite (bind_Ret _ _ _ _ _ (selectRoute_isRoute ch s Er)) in Ed.
  cbn beta iota in Ed. unfold bind at 1 in Ed.
  destruct (getConn (Some ch) s) as [[[conn [e|]]|] s2] eqn:Eg;
    cbn [fst snd] in *.
  - injection Ed as <- <-. exists evs1, [], (more1 ++ [addr]).
    rewrite Hk, app_nil_r, <- List.app_assoc. auto.
  - destruct conn as [cn|];
      [|exfalso; exact (getConn_not_nil_nil (Some ch) s s2 Eg)].
    rewrite (Hs cn eq_refl), app_nil_r in Hk.
    assert (Hstop : exists evs evs' more,
               trace s2 = trace s ++ evs /\ asked evs = []
               /\ map Addr (Nodes ch) ++ [addr] = contacted evs ++ more
               /\ trace s2 = trace s2 ++ evs').
    { exists evs1, [], [addr]. rewrite Hk, app_nil_r. auto. }
    revert Ed. unfold_calls.
    destruct (LastNode (Some ch)) as [lastn|];
      [|intros Ed; injection Ed as <- <-; exact Hstop].
    destruct (Client_of_node lastn) as [cl|];
      [|intros Ed; injection Ed as <- <-; exact Hstop].
    destruct (Client_Connect cl (Some cn) addr (ext s2)) as [[cc|e] x];
      unfold record; intros Ed; injection Ed as <- <-; cbn [trace].
    + exists (evs1 ++ [EConnect cl (Some cn) addr]),
        [EConnect cl (Some cn) addr], [].
      rewrite Ht, asked_app, contacted_app, Ha, Hk.
      repeat split; cbn; rewrite ?app_nil_r, <- ?List.app_assoc; reflexivity.
    + exists (evs1 ++ [EConnect cl (Some cn) addr; EClose cn]),
        [EConnect cl (Some cn) addr; EClose cn], [].
      rewrite Ht, asked_app, contacted_app, Ha, Hk.
      repeat split; cbn; rewrite ?app_nil_r, <- ?List.app_assoc; reflexivity.
  - injection Ed as <- <-. exists evs1, [], (more1 ++ [addr]).
    rewrite Hk, app_nil_r, <- List.app_assoc. auto.
Qed.

(** X17.  On a non-empty chain marked as a route, [Dial] and [Conn] never
    ask a group to select, however many attempts they make, and every
    attempt builds that very chain.  An attempt of [Conn] is a run of
    [getConn] on the chain.  An attempt of [Dial] starts with that run,
    and the addresses it dials or connects through to are, in order, a
    prefix of the addresses of the nodes the chain lists, followed by the
    target. *)
Theorem route_never_selects ch addr (s : State X) :
  isRoute ch = true ->
  nodeGroups ch <> [] ->
  let n := iterations (GoInt.add (Retries ch) 1) in
  let dials := attempts (dial ch addr) n s in
  let conns := attempts (Conn_attempt ch) n s in
  Dial (Some ch) addr s = last dials (Ret (None, None), s)
  /\ Conn (Some ch) s = last conns (Ret (None, None), s)
  /\ Forall2 (dials_route ch [addr]) (starts s dials) dials
  /\ Forall2 (dials_route ch []) (starts s conns) conns
  /\ Forall2 (fun start entry => entry = getConn (Some ch) start)
             (starts s conns) conns
  /\ exists evs_dial evs_conn,
      emits s (snd (Dial (Some ch) addr s)) evs_dial
      /\ asked evs_dial = []
      /\ emits s (snd (Conn (Some ch) s)) evs_conn
      /\ asked evs_conn = [].
Proof.
  intros Er Hne n dials conns.
  pose proof (IsEmpty_Some_false ch Hne) as He.
  split.
  { unfold Dial. rewrite He. apply Dial_for_attempts. }
  split; [unfold Conn; apply Conn_for_attempts|].
  split.
  { apply attempts_all. intros s0. apply dial_dials_route; assumption. }
  split.
  { apply attempts_all. intros s0.
    apply Conn_attempt_dials_route; assumption. }
  split.
  { apply attempts_all. intros s0. apply Conn_attempt_route, Er. }
  assert (Hd : quiet (X := X) (Dial (Some ch) addr)).
  { unfold Dial. rewrite He. apply quiet_Dial_for, Er. }
  assert (Hc : quiet (X := X) (Conn (Some ch))).
  { unfold Conn. apply quiet_Conn_for, Er. }
  destruct (Hd s) as (evs_d & Htd & Had).
  destruct (Hc s) as (evs_c & Htc & Hac).
  exists evs_d, evs_c. unfold emits. auto.
Qed.

End NeverPanics.

(** ** The further properties on concrete chains *)

Lemma getConn_one_pass_witness :
  let ch := newRoute [Sim.hopB; Sim.hopC; Sim.hopFar; Sim.hopD] in
  let r : net_Conn * error := (None, Some (ErrOther "connect failed")) in
  let s' := snd (getConn (Some ch) (Sim.init 0)) in
  IsEmpty (Some ch) = false /\
  getConn (Some ch) (Sim.init 0) = (Ret r, s') /\
  exists evs post,
    emits (Sim.init 0) s' evs
    /\ Nodes ch = resets evs ++ marked evs ++ post
    /\ exists hi evs0,
        marked evs = [hi] /\ evs = evs0 ++ [EMarkDead hi]
        /\ List.length (closes evs) = closed_on_failure (resets evs).
Proof.
  cbv zeta. split; [reflexivity|]. split; [reflexivity|].
  exact (getConn_one_pass
           (newRoute [Sim.hopB; Sim.hopC; Sim.hopFar; Sim.hopD]) (Sim.init 0)
           (None, Some (ErrOther "connect failed"))
           (snd (getConn
                   (Some (newRoute [Sim.hopB; Sim.hopC; Sim.hopFar; Sim.hopD]))
                   (Sim.init 0)))
           eq_refl eq_refl).
Defined.

Lemma getConn_contacts_in_order_witness :
  let ch := newRoute [Sim.hopB; Sim.hopC; Sim.hopFar; Sim.hopD] in
  let s' := snd (getConn (Some ch) (Sim.init 0)) in
  IsEmpty (Some ch) = false /\
  getConn (Some ch) (Sim.init 0)
  = (Ret (None, Some (ErrOther "connect failed")), s') /\
  exists evs more,
    emits (Sim.init 0) s' evs /\ asked evs = []
    /\ map Addr (Nodes ch) = contacted evs ++ more
    /\ exists hi, marked evs = [hi] /\ last (contacted evs) "" = Addr hi.
Proof.
  cbv zeta. split; [reflexivity|]. split; [reflexivity|].
  exact (getConn_contacts_in_order
           (newRoute [Sim.hopB; Sim.hopC; Sim.hopFar; Sim.hopD]) (Sim.init 0)
           (Ret (None, Some (ErrOther "connect failed")))
           (snd (getConn
                   (Some (newRoute [Sim.hopB; Sim.hopC; Sim.hopFar; Sim.hopD]))
                   (Sim.init 0)))
           eq_refl eq_refl).
Defined.

Lemma getConn_panics_only_without_nodes_witness :
  let ch := newRoute [Sim.hopB; Sim.hopC] in
  let ch0 := Build_Chain false 0 [Build_NodeGroup 13 []] in
  Forall (fun g => nodes g <> []) (nodeGroups ch) /\
  Forall has_client (Nodes ch) /\
  nodeGroups ch0 <> [] /\
  Nodes ch0 = [] /\
  fst (getConn (Some ch) (Sim.init 0)) <> Panic /\
  getConn (Some ch0) (Sim.init 0) = (Panic, Sim.init 0).
Proof.
  cbv zeta.
  assert (Hg : Forall (fun g => nodes g <> [])
                      (nodeGroups (newRoute [Sim.hopB; Sim.hopC])))
    by (repeat constructor; discriminate).
  assert (Hc : Forall has_client (Nodes (newRoute [Sim.hopB; Sim.hopC])))
    by (repeat constructor; discriminate).
  split; [exact Hg|]. split; [exact Hc|]. split; [discriminate|].
  split; [reflexivity|].
  apply (getConn_panics_only_without_nodes
           (newRoute [Sim.hopB; Sim.hopC])
           (Build_Chain false 0 [Build_NodeGroup 13 []]) (Sim.init 0)).
  - exact Hg.
  - exact Hc.
  - discriminate.
  - reflexivity.
Defined.

Lemma dial_final_connect_witness :
  let ch := Build_Chain false 0 [Sim.G1] in
  let route := Some (newRoute [Sim.hopB]) in
  let s1 := snd (selectRoute ch (Sim.init 0)) in
  let s2 := snd (getConn route s1) in
  selectRoute ch (Sim.init 0) = (Ret (route, None), s1) /\
  getConn route s1 = (Ret (Some 1%nat, None), s2) /\
  LastNode route = Ret Sim.hopB /\
  Client_of_node Sim.hopB = Some Sim.tcp /\
  Client_Connect Sim.tcp (Some 1%nat) "unreachable" (ext s2)
  = (Fail (ErrOther "connect failed"), ext s2) /\
  exists evs,
    emits s1 s2 evs /\ closes evs = [] /\ marked evs = []
    /\ dial ch "unreachable" (Sim.init 0)
       = (Ret (None, Some (ErrOther "connect failed")),
          {| ext := Conn_Close 1%nat (ext s2);
             trace := trace s2 ++ [EConnect Sim.tcp (Some 1%nat) "unreachable";
                                   EClose 1%nat];
             logged := logged s2 |}).
Proof.
  cbv zeta. repeat (split; [reflexivity|]).
  exact (dial_final_connect
           (Build_Chain false 0 [Sim.G1]) "unreachable" (Sim.init 0)
           (snd (selectRoute (Build_Chain false 0 [Sim.G1]) (Sim.init 0)))
           (snd (getConn (Some (newRoute [Sim.hopB]))
                   (snd (selectRoute (Build_Chain false 0 [Sim.G1])
                                     (Sim.init 0)))))
           (Some (newRoute [Sim.hopB])) 1%nat Sim.hopB Sim.tcp
           (Fail (ErrOther "connect failed"))
           (ext (snd (getConn (Some (newRoute [Sim.hopB]))
                        (snd (selectRoute (Build_Chain false 0 [Sim.G1])
                                          (Sim.init 0))))))
           eq_refl eq_refl eq_refl eq_refl eq_refl).
Defined.

Lemma selectRoute_asks_in_order_witness :
  let none := Build_NodeGroup 13 [] in
  let ch := Build_Chain false 0 [Sim.G1; none; Sim.G3] in
  let s' := snd (selectRoute ch (Sim.init 0)) in
  isRoute ch = false /\
  selectRoute ch (Sim.init 0)
  = (Ret (None, Some (ErrOther "no node available")), s') /\
  exists evs,
    emits (Sim.init 0) s' evs
    /\ (None : ptr_Chain) = None
    /\ exists pre g post x,
        nodeGroups ch = pre ++ g :: post
        /\ evs = map ENext (pre ++ [g])
        /\ group_Next g x = (Fail (ErrOther "no node available"), ext s').
Proof.
  cbv zeta. split; [reflexivity|]. split; [reflexivity|].
  exact (selectRoute_asks_in_order
           (Build_Chain false 0 [Sim.G1; Build_NodeGroup 13 []; Sim.G3])
           (Sim.init 0)
           (Ret (None, Some (ErrOther "no node available")))
           (snd (selectRoute
                   (Build_Chain false 0 [Sim.G1; Build_NodeGroup 13 []; Sim.G3])
                   (Sim.init 0)))
           eq_refl eq_refl).
Defined.

Lemma selectRoute_returns_route_witness :
  let route :=
    Build_Chain true 0
      [NewNodeGroup [append_DialOption Sim.hopA
                       (ChainDialOption (Some (Build_Chain true 0 [])))];
       NewNodeGroup [Sim.hopB]] in
  let s' := snd (selectRoute Sim.chainAB (Sim.init 0)) in
  selectRoute Sim.chainAB (Sim.init 0) = (Ret (Some route, None), s') /\
  exists r,
    Some route = Some r
    /\ isRoute r = true
    /\ Retries r = Retries Sim.chainAB
    /\ IsEmpty (Some r) = IsEmpty (Some Sim.chainAB)
    /\ (List.length (nodeGroups r) <= List.length (nodeGroups Sim.chainAB))%nat.
Proof.
  cbv zeta. split; [reflexivity|].
  exact (selectRoute_returns_route Sim.chainAB (Sim.init 0) _ _ eq_refl).
Defined.

Lemma selectRoute_last_segment_witness :
  let ch := Build_Chain false 0 [Sim.G3; Sim.G0; Sim.G1] in
  let r :=
    Build_Chain true 0
      [NewNodeGroup [append_DialOption Sim.hopA
                       (ChainDialOption (Some (newRoute [Sim.hopB])))];
       NewNodeGroup [Sim.hopB]] in
  let s' := snd (selectRoute ch (Sim.init 0)) in
  isRoute ch = false /\
  selectRoute ch (Sim.init 0) = (Ret (Some r, None), s') /\
  exists pre suf,
    selections (nodeGroups ch) (ext (Sim.init 0)) = pre ++ suf
    /\ List.length (pre ++ suf) = List.length (nodeGroups ch)
    /\ r = resolve (Retries ch) (pre ++ suf)
    /\ Forall (fun n => is_multiplex n = false) (tl suf)
    /\ match suf with
       | [] => pre = [] /\ Nodes r = []
       | h :: rest =>
           if is_multiplex h then
             Nodes r
             = append_DialOption
                 h (ChainDialOption (Some (resolve (Retries ch) pre))) :: rest
           else
             pre = [] /\ Nodes r = h :: rest
       end.
Proof.
  cbv zeta. split; [reflexivity|]. split; [reflexivity|].
  exact (selectRoute_last_segment
           (Build_Chain false 0 [Sim.G3; Sim.G0; Sim.G1]) (Sim.init 0)
           _ _ eq_refl eq_refl).
Defined.

Lemma selectRoute_plain_witness :
  let ch := Build_Chain false 0 [Sim.G3; Sim.G1] in
  let r := newRoute [Sim.hopB; Sim.hopB] in
  let s' := snd (selectRoute ch (Sim.init 0)) in
  isRoute ch = false /\
  selectRoute ch (Sim.init 0) = (Ret (Some r, None), s') /\
  Forall (fun n => is_multiplex n = false)
         (selections (nodeGroups ch) (ext (Sim.init 0))) /\
  Nodes r = selections (nodeGroups ch) (ext (Sim.init 0))
  /\ nodeGroups r
     = map (fun n => NewNodeGroup [n])
           (selections (nodeGroups ch) (ext (Sim.init 0)))
  /\ List.length (Nodes r) = List.length (nodeGroups ch).
Proof.
  cbv zeta.
  assert (Hp : Forall (fun n => is_multiplex n = false)
                 (selections
                    (nodeGroups (Build_Chain false 0 [Sim.G3; Sim.G1]))
                    (ext (Sim.init 0))))
    by (repeat constructor).
  split; [reflexivity|]. split; [reflexivity|]. split; [exact Hp|].
  exact (selectRoute_plain
           (Build_Chain false 0 [Sim.G3; Sim.G1]) (Sim.init 0)
           (newRoute [Sim.hopB; Sim.hopB])
           (snd (selectRoute (Build_Chain false 0 [Sim.G3; Sim.G1])
                             (Sim.init 0)))
           eq_refl eq_refl Hp).
Defined.



Lemma route_never_selects_witness :
  let ch := set_Retries (newRoute [Sim.hopB; Sim.hopC]) 2 in
  let n := iterations (GoInt.add (Retries ch) 1) in
  let dials := attempts (dial ch "dst:80") n (Sim.init 1) in
  let conns := attempts (Conn_attempt ch) n (Sim.init 1) in
  isRoute ch = true /\
  nodeGroups ch <> [] /\
  Dial (Some ch) "dst:80" (Sim.init 1)
  = last dials (Ret (None, None), Sim.init 1)
  /\ Conn (Some ch) (Sim.init 1) = last conns (Ret (None, None), Sim.init 1)
  /\ Forall2 (dials_route ch ["dst:80"]) (starts (Sim.init 1) dials) dials
  /\ Forall2 (dials_route ch []) (starts (Sim.init 1) conns) conns
  /\ Forall2 (fun start entry => entry = getConn (Some ch) start)
             (starts (Sim.init 1) conns) conns
  /\ exists evs_dial evs_conn,
      emits (Sim.init 1) (snd (Dial (Some ch) "dst:80" (Sim.init 1))) evs_dial
      /\ asked evs_dial = []
      /\ emits (Sim.init 1) (snd (Conn (Some ch) (Sim.init 1))) evs_conn
      /\ asked evs_conn = [].
Proof.
  cbv zeta. split; [reflexivity|]. split; [discriminate|].
  apply (route_never_selects
           (set_Retries (newRoute [Sim.hopB; Sim.hopC]) 2) "dst:80"
           (Sim.init 1)).
  - reflexivity.
  - discriminate.
Defined.
